(** * WebSocket test servers: the metrics broadcast server and the echo servers

    A shallow embedding of the three Node.js programs of the repository

    - [Websocket_testings/system_monitor/server.js], the metrics server
      (module [MetricsServer]),
    - the two echo servers on port 8080 (modules [EchoServer] and
      [EchoServerQuoted]),

    and of its two ESP32 client sketches (modules [WsConnectionClient] and
    [RemoteConnectionInternet], on the runtime of module [Arduino]),
    together with the parts of their runtime the handlers call: the
    ECMAScript [JSON] object (modules [Number], [Text], [JSON]), the [Set]
    that holds the clients (module [JsSet]) and the event discipline of the
    [ws] library (module [Runtime]).

    Handlers are written in a small monad that threads the program state,
    the trace of observable effects (frames sent, console lines, HTTP
    responses) and a possibly pending exception, so that each handler can be
    read side by side with its JavaScript source. *)

From Stdlib Require Import ZArith String Ascii List SpecFloat DecimalString Lia.
From stdpp Require Import base list strings.

#[local] Set Warnings "-register-all".

(** ** ECMAScript numbers

    A Number is an IEEE 754 binary64 value.  [round_decimal] is the
    correctly rounded (nearest, ties to even) value of a decimal numeral and
    [toString] is Number::toString in radix 10: the shortest decimal numeral
    that reads back as the same Number, the closest one if there are
    several. *)
Module Number.

#[local] Open Scope Z_scope.

Definition prec : Z := 53.
Definition emax : Z := 1024.

Definition number : Type := spec_float.

Definition decimal_of_Z (z : Z) : string :=
  NilEmpty.string_of_uint (N.to_uint (Z.to_N z)).

Definition Z_of_decimal (digits : string) : Z :=
  match NilEmpty.uint_of_string digits with
  | Some u => Z.of_N (N.of_uint u)
  | None => 0
  end.

Definition decimal_length (z : Z) : Z :=
  Z.of_nat (String.length (decimal_of_Z z)).

Definition signed (neg : bool) (m : Z) : Z := if neg then - m else m.

(** The Number nearest to [(-1)^neg * D * 10^E].  A quotient is carried
    with 64 extra bits and a sticky bit, which is enough for the final
    rounding to 53 bits to be exact. *)
Definition round_decimal (neg : bool) (D E : Z) : number :=
  if D <=? 0 then S754_zero neg
  else
    let nd := decimal_length D in
    if 310 <? nd + E then S754_infinity neg
    else if nd + E <? -330 then S754_zero neg
    else if 0 <=? E then binary_normalize prec emax (signed neg (D * 10 ^ E)) 0 neg
    else
      let den := 10 ^ (- E) in
      let k := Z.max 0 (Z.log2 den - Z.log2 D + 64) in
      let num := D * 2 ^ k in
      let q := num / den in
      let sticky := if num mod den =? 0 then 0 else 1 in
      binary_normalize prec emax (signed neg (2 * q + sticky)) (- k - 1) neg.

Definition number_eqb (x y : number) : bool :=
  match x, y with
  | S754_zero s1, S754_zero s2 => Bool.eqb s1 s2
  | S754_infinity s1, S754_infinity s2 => Bool.eqb s1 s2
  | S754_finite s1 m1 e1, S754_finite s2 m2 e2 =>
      Bool.eqb s1 s2 && Pos.eqb m1 m2 && Z.eqb e1 e2
  | _, _ => false
  end.

(** [10^n <= m * 2^e] *)
Definition ge_pow10 (m e n : Z) : bool :=
  10 ^ Z.max n 0 * 2 ^ Z.max (- e) 0 <=? m * 2 ^ Z.max e 0 * 10 ^ Z.max (- n) 0.

(** The [n] with [10^(n-1) <= m * 2^e < 10^n].  It lies within two of
    the estimate [log2 (m * 2^e) * 0.30103]; the candidates are tried in
    increasing order from two below it. *)
Definition magnitude (m e : Z) : Z :=
  let estimate := (Z.log2 m + e) * 30103 / 100000 in
  let candidates := seqZ (estimate - 2) 8 in
  default (estimate + 6) (List.find (fun n => negb (ge_pow10 m e n)) candidates).

(** The numeral [dg_s * 10^dg_t] *)
Record digits := { dg_s : Z; dg_t : Z }.

(** The [k]-digit numeral next to [m * 2^e] that reads back as it, if there
    is one: the numeral below or the numeral above, the closer of the two
    if both do, the even one on a tie. *)
Definition candidate (m e n k : Z) : option digits :=
  let t := n - k in
  let num := m * 2 ^ Z.max e 0 * 10 ^ Z.max (- t) 0 in
  let den := 2 ^ Z.max (- e) 0 * 10 ^ Z.max t 0 in
  let lo := num / den in
  let r := num mod den in
  let x := binary_normalize prec emax m e false in
  let ok s := number_eqb (round_decimal false s t) x in
  let hi := lo + 1 in
  let pick_hi := (den <? 2 * r) || ((den =? 2 * r) && Z.odd lo) in
  match ok lo, ok hi && negb (r =? 0) with
  | true, true => Some {| dg_s := if pick_hi then hi else lo; dg_t := t |}
  | true, false => Some {| dg_s := lo; dg_t := t |}
  | false, true => Some {| dg_s := hi; dg_t := t |}
  | false, false => None
  end.

Fixpoint first_candidate (m e n : Z) (ks : list Z) : option digits :=
  match ks with
  | [] => None
  | k :: ks' =>
      match candidate m e n k with
      | Some d => Some d
      | None => first_candidate m e n ks'
      end
  end.

(** The shortest numeral that reads back as [m * 2^e].  Seventeen digits
    always do for a binary64 value. *)
Definition shortest (m e : Z) : digits :=
  let n := magnitude m e in
  default {| dg_s := m * 2 ^ Z.max e 0 * 10 ^ Z.max (17 - n) 0
                     / (2 ^ Z.max (- e) 0 * 10 ^ Z.max (n - 17) 0);
             dg_t := n - 17 |}
    (first_candidate m e n (seqZ 1 17)).

(** The digits of a numeral without its trailing zeros *)
Fixpoint significant (ds : string) : string :=
  match ds with
  | EmptyString => EmptyString
  | String c rest =>
      match significant rest with
      | EmptyString => if Ascii.eqb c "0" then EmptyString else String c EmptyString
      | rest' => String c rest'
      end
  end.

Definition zeros (n : Z) : string :=
  String.concat EmptyString (replicate (Z.to_nat n) "0").

Definition exponent_part (n : Z) : string :=
  "e" +:+ (if n - 1 <? 0 then "-" else "+") +:+ decimal_of_Z (Z.abs (n - 1)).

(** Number::toString of the positive finite value [m * 2^e]: with [k]
    significant digits [ds] and the decimal point after the [n]-th. *)
Definition positive_to_string (m e : Z) : string :=
  let d := shortest m e in
  let all := decimal_of_Z (dg_s d) in
  let ds := significant all in
  let k := Z.of_nat (String.length ds) in
  let n := dg_t d + Z.of_nat (String.length all) in
  if (k <=? n) && (n <=? 21) then ds +:+ zeros (n - k)
  else if (0 <? n) && (n <=? 21) then
    String.substring 0 (Z.to_nat n) ds +:+ "." +:+
    String.substring (Z.to_nat n) (Z.to_nat (k - n)) ds
  else if (-6 <? n) && (n <=? 0) then "0." +:+ zeros (- n) +:+ ds
  else if k =? 1 then ds +:+ exponent_part n
  else String.substring 0 1 ds +:+ "." +:+
       String.substring 1 (Z.to_nat (k - 1)) ds +:+ exponent_part n.

Definition toString (x : number) : string :=
  match x with
  | S754_zero _ => "0"
  | S754_nan => "NaN"
  | S754_infinity neg => if neg then "-Infinity" else "Infinity"
  | S754_finite neg m e =>
      (if neg then "-" else EmptyString) +:+ positive_to_string (Zpos m) e
  end.

End Number.

(** ** Text

    A message is the text of a WebSocket frame, held as its UTF-8 bytes.
    ECMAScript strings are sequences of 16-bit code units; on well-formed
    text the two agree byte for byte, and a lone surrogate written as an
    escape is kept as its three-byte generalised encoding. *)
Module Text.

Definition dquote : ascii := "034"%char.
Definition backslash : ascii := "092"%char.

Definition code (c : ascii) : N := N_of_ascii c.
Definition char (n : N) : ascii := ascii_of_N n.

(** Writes a text with apostrophes where it has double quotes:
    [lit "{'cpu':42}"] is the ten characters [{"cpu":42}]. *)
Definition lit (s : string) : string :=
  string_of_list_ascii
    (map (fun c => if Ascii.eqb c "'" then dquote else c) (list_ascii_of_string s)).

Definition is_digit (c : ascii) : bool := (48 <=? code c)%N && (code c <=? 57)%N.

Definition hex_value (c : ascii) : option N :=
  let n := code c in
  if (48 <=? n)%N && (n <=? 57)%N then Some (n - 48)%N
  else if (65 <=? n)%N && (n <=? 70)%N then Some (n - 55)%N
  else if (97 <=? n)%N && (n <=? 102)%N then Some (n - 87)%N
  else None.

Definition hex_digit (n : N) : ascii :=
  if (n <? 10)%N then char (48 + n) else char (87 + n).

(** Four lower-case hexadecimal digits *)
Definition hex4 (u : N) : string :=
  String (hex_digit (u / 4096 mod 16)) (String (hex_digit (u / 256 mod 16))
    (String (hex_digit (u / 16 mod 16)) (String (hex_digit (u mod 16)) EmptyString))).

(** A piece of the contents of a string literal: a byte of the text, or
    the code unit of a [\uXXXX] escape *)
Inductive item := Raw (c : ascii) | Unit16 (u : N).

Definition utf8 (cp : N) : string :=
  (if cp <? 128 then String (char cp) EmptyString
   else if cp <? 2048 then
     String (char (192 + cp / 64)) (String (char (128 + cp mod 64)) EmptyString)
   else if cp <? 65536 then
     String (char (224 + cp / 4096)) (String (char (128 + cp / 64 mod 64))
       (String (char (128 + cp mod 64)) EmptyString))
   else
     String (char (240 + cp / 262144)) (String (char (128 + cp / 4096 mod 64))
       (String (char (128 + cp / 64 mod 64)) (String (char (128 + cp mod 64)) EmptyString))))%N.

Definition is_high (u : N) : bool := (55296 <=? u)%N && (u <? 56320)%N.
Definition is_low (u : N) : bool := (56320 <=? u)%N && (u <? 57344)%N.

Fixpoint encode (items : list item) : string :=
  match items with
  | [] => EmptyString
  | Raw c :: rest => String c (encode rest)
  | Unit16 hi :: rest =>
      match rest with
      | Unit16 lo :: rest' =>
          if is_high hi && is_low lo
          then utf8 (65536 + (hi - 55296) * 1024 + (lo - 56320))%N +:+ encode rest'
          else utf8 hi +:+ encode rest
      | _ => utf8 hi +:+ encode rest
      end
  end.

End Text.

(** ** The JSON object

    [JSON.parse] and [JSON.stringify] as ECMA-262 defines them.  Parsing
    runs in two passes, both without recursion on the nesting: a lexer that
    cuts the text into punctuation, string literals and words (a word must
    turn out to be a literal name or a number), and a parser that keeps the
    open arrays and objects on an explicit stack.  The limits an engine
    puts on memory and on the depth of the call stack are not modelled. *)
Module JSON.
Import Text.

Inductive value :=
| JNull
| JBoolean (b : bool)
| JNumber (x : Number.number)
| JString (s : string)
| JArray (elements : list value)
| JObject (properties : list (string * value)).

(** Lexical analysis *)

Inductive token :=
| TLBrace | TRBrace | TLBracket | TRBracket | TColon | TComma
| TString (s : string)
| TWord (w : string).

Inductive lexer :=
| LIdle
| LWord (w_rev : list ascii)
| LStr (items_rev : list item)
| LEsc (items_rev : list item)
| LHex (items_rev : list item) (count : nat) (acc : N).

Definition is_ws (c : ascii) : bool :=
  let n := code c in ((n =? 32) || (n =? 9) || (n =? 10) || (n =? 13))%N.

Definition punctuation (c : ascii) : option token :=
  match c with
  | "{"%char => Some TLBrace
  | "}"%char => Some TRBrace
  | "["%char => Some TLBracket
  | "]"%char => Some TRBracket
  | ":"%char => Some TColon
  | ","%char => Some TComma
  | _ => None
  end.

Definition word_of (w_rev : list ascii) : string := string_of_list_ascii (rev w_rev).

Definition flush (st : lexer) : list token :=
  match st with
  | LWord w_rev => [TWord (word_of w_rev)]
  | _ => []
  end.

Definition escape (c : ascii) : option ascii :=
  match c with
  | "b"%char => Some (char 8)
  | "f"%char => Some (char 12)
  | "n"%char => Some (char 10)
  | "r"%char => Some (char 13)
  | "t"%char => Some (char 9)
  | "/"%char => Some c
  | _ => if Ascii.eqb c dquote || Ascii.eqb c backslash then Some c else None
  end.

Definition lex_step (st : lexer) (c : ascii) : option (lexer * list token) :=
  match st with
  | LStr items =>
      if Ascii.eqb c dquote then Some (LIdle, [TString (encode (rev items))])
      else if Ascii.eqb c backslash then Some (LEsc items, [])
      else if (code c <? 32)%N then None
      else Some (LStr (Raw c :: items), [])
  | LEsc items =>
      if Ascii.eqb c "u" then Some (LHex items 0 0%N, [])
      else match escape c with
           | Some c' => Some (LStr (Raw c' :: items), [])
           | None => None
           end
  | LHex items count acc =>
      match hex_value c with
      | Some h =>
          let acc' := (acc * 16 + h)%N in
          if decide (count = 3) then Some (LStr (Unit16 acc' :: items), [])
          else Some (LHex items (S count) acc', [])
      | None => None
      end
  | _ =>
      if is_ws c then Some (LIdle, flush st)
      else if Ascii.eqb c dquote then Some (LStr [], flush st)
      else match punctuation c with
           | Some t => Some (LIdle, flush st ++ [t])
           | None =>
               Some (LWord (c :: match st with LWord w_rev => w_rev | _ => [] end), [])
           end
  end.

Fixpoint lex (st : lexer) (text : string) : option (list token) :=
  match text with
  | EmptyString =>
      match st with
      | LIdle | LWord _ => Some (flush st)
      | _ => None
      end
  | String c rest =>
      match lex_step st c with
      | Some (st', toks) => app toks <$> lex st' rest
      | None => None
      end
  end.

(** Numbers and literals *)

Fixpoint span_digits (s : string) : string * string :=
  match s with
  | String c rest =>
      if is_digit c then let (ds, r) := span_digits rest in (String c ds, r)
      else (EmptyString, s)
  | EmptyString => (EmptyString, EmptyString)
  end.

Definition nonempty (s : string) : bool :=
  match s with EmptyString => false | _ => true end.

Definition wf_int (ds : string) : bool :=
  match ds with
  | EmptyString => false
  | String "0" (String _ _) => false
  | _ => true
  end.

Definition number_of_word (w : string) : option Number.number :=
  let '(neg, w1) :=
    match w with String "-" r => (true, r) | _ => (false, w) end in
  let '(int, w2) := span_digits w1 in
  let '(frac, w3) :=
    match w2 with
    | String "." r => let (f, r') := span_digits r in (Some f, r')
    | _ => (None, w2)
    end in
  let '(exp, w4) :=
    match w3 with
    | String c r =>
        if Ascii.eqb c "e" || Ascii.eqb c "E" then
          let '(eneg, r1) :=
            match r with
            | String "-" r' => (true, r')
            | String "+" r' => (false, r')
            | _ => (false, r)
            end in
          let (ds, r2) := span_digits r1 in (Some (eneg, ds), r2)
        else (None, w3)
    | EmptyString => (None, w3)
    end in
  let frac_ok := match frac with Some f => nonempty f | None => true end in
  let exp_ok := match exp with Some (_, ds) => nonempty ds | None => true end in
  if wf_int int && frac_ok && exp_ok && negb (nonempty w4) then
    let f := default EmptyString frac in
    let e := match exp with
             | Some (eneg, ds) => Number.signed eneg (Number.Z_of_decimal ds)
             | None => 0%Z
             end in
    Some (Number.round_decimal neg (Number.Z_of_decimal (int +:+ f))
            (e - Z.of_nat (String.length f)))
  else None.

Definition value_of_word (w : string) : option value :=
  if String.eqb w "null" then Some JNull
  else if String.eqb w "true" then Some (JBoolean true)
  else if String.eqb w "false" then Some (JBoolean false)
  else JNumber <$> number_of_word w.

(** Objects: own properties in the order the engine enumerates them *)

Definition array_index (k : string) : option N :=
  let (ds, r) := span_digits k in
  if wf_int ds && negb (nonempty r) then
    let n := Z.to_N (Number.Z_of_decimal ds) in
    if (n <? 4294967295)%N then Some n else None
  else None.

Definition index_before (k k' : string) : bool :=
  match array_index k, array_index k' with
  | Some n, Some n' => (n <? n')%N
  | Some _, None => true
  | None, _ => false
  end.

Fixpoint place (k : string) (v : value) (ps : list (string * value)) :=
  match ps with
  | [] => [(k, v)]
  | (k', v') :: ps' =>
      if index_before k k' then (k, v) :: ps else (k', v') :: place k v ps'
  end.

Fixpoint overwrite (k : string) (v : value) (ps : list (string * value)) :=
  match ps with
  | [] => []
  | (k', v') :: ps' =>
      if String.eqb k k' then (k, v) :: ps' else (k', v') :: overwrite k v ps'
  end.

Definition has_property (k : string) (ps : list (string * value)) : bool :=
  existsb (fun p => String.eqb k (fst p)) ps.

Definition define_property (k : string) (v : value) (ps : list (string * value)) :=
  if has_property k ps then overwrite k v ps else place k v ps.

(** Syntactic analysis: an explicit stack of open arrays and objects *)

Inductive frame :=
| FArray (elements_rev : list value)
| FObject (properties : list (string * value)) (key : string).

Inductive parser :=
| PValue (stack : list frame)
| PArrayStart (stack : list frame)
| PArrayNext (elements_rev : list value) (stack : list frame)
| PObjectStart (stack : list frame)
| PObjectKey (properties : list (string * value)) (stack : list frame)
| PObjectColon (properties : list (string * value)) (key : string) (stack : list frame)
| PObjectNext (properties : list (string * value)) (stack : list frame)
| PDone (v : value).

Definition complete (v : value) (stack : list frame) : parser :=
  match stack with
  | [] => PDone v
  | FArray es :: stack' => PArrayNext (v :: es) stack'
  | FObject ps k :: stack' => PObjectNext (define_property k v ps) stack'
  end.

Definition begin_value (t : token) (stack : list frame) : option parser :=
  match t with
  | TLBrace => Some (PObjectStart stack)
  | TLBracket => Some (PArrayStart stack)
  | TString s => Some (complete (JString s) stack)
  | TWord w => (fun v => complete v stack) <$> value_of_word w
  | _ => None
  end.

Definition parse_step (st : parser) (t : token) : option parser :=
  match st with
  | PValue stack => begin_value t stack
  | PArrayStart stack =>
      match t with
      | TRBracket => Some (complete (JArray []) stack)
      | _ => begin_value t (FArray [] :: stack)
      end
  | PArrayNext es stack =>
      match t with
      | TComma => Some (PValue (FArray es :: stack))
      | TRBracket => Some (complete (JArray (rev es)) stack)
      | _ => None
      end
  | PObjectStart stack =>
      match t with
      | TRBrace => Some (complete (JObject []) stack)
      | TString k => Some (PObjectColon [] k stack)
      | _ => None
      end
  | PObjectKey ps stack =>
      match t with
      | TString k => Some (PObjectColon ps k stack)
      | _ => None
      end
  | PObjectColon ps k stack =>
      match t with
      | TColon => Some (PValue (FObject ps k :: stack))
      | _ => None
      end
  | PObjectNext ps stack =>
      match t with
      | TComma => Some (PObjectKey ps stack)
      | TRBrace => Some (complete (JObject ps) stack)
      | _ => None
      end
  | PDone _ => None
  end.

Fixpoint parse_tokens (st : parser) (ts : list token) : option value :=
  match ts with
  | [] => match st with PDone v => Some v | _ => None end
  | t :: ts' =>
      match parse_step st t with
      | Some st' => parse_tokens st' ts'
      | None => None
      end
  end.

(** [JSON.parse(text)]; [None] stands for the SyntaxError it throws. *)
Definition parse (text : string) : option value :=
  match lex LIdle text with
  | Some ts => parse_tokens (PValue []) ts
  | None => None
  end.

(** [JSON.stringify(value)] without replacer or indentation *)

Fixpoint quote_chars (s : string) : string :=
  match s with
  | EmptyString => EmptyString
  | String c rest =>
      let n := code c in
      if Ascii.eqb c dquote then String backslash (String dquote (quote_chars rest))
      else if Ascii.eqb c backslash then String backslash (String backslash (quote_chars rest))
      else if (n =? 8)%N then "\b" +:+ quote_chars rest
      else if (n =? 9)%N then "\t" +:+ quote_chars rest
      else if (n =? 10)%N then "\n" +:+ quote_chars rest
      else if (n =? 12)%N then "\f" +:+ quote_chars rest
      else if (n =? 13)%N then "\r" +:+ quote_chars rest
      else if (n <? 32)%N then "\u" +:+ hex4 n +:+ quote_chars rest
      else
        match rest with
        | String c2 (String c3 rest') =>
            if (n =? 237)%N && (160 <=? code c2)%N then
              "\u" +:+ hex4 (53248 + code c2 mod 64 * 64 + code c3 mod 64)%N
                   +:+ quote_chars rest'
            else String c (quote_chars rest)
        | _ => String c (quote_chars rest)
        end
  end.

Definition quote (s : string) : string :=
  String dquote (quote_chars s +:+ String dquote EmptyString).

Definition join (parts : list string) : string := String.concat "," parts.

Fixpoint stringify (v : value) : string :=
  match v with
  | JNull => "null"
  | JBoolean b => if b then "true" else "false"
  | JNumber x =>
      match x with
      | S754_zero _ | S754_finite _ _ _ => Number.toString x
      | _ => "null"
      end
  | JString s => quote s
  | JArray vs => "[" +:+ join (map stringify vs) +:+ "]"
  | JObject ps =>
      "{" +:+ join (map (fun p => quote (fst p) +:+ ":" +:+ stringify (snd p)) ps) +:+ "}"
  end.

End JSON.

(** ** The [Set] of the language

    A Set keeps its members in insertion order and holds each at most once;
    [forEach] visits them in that order. *)
Module JsSet.

Definition add `{EqDecision A} (x : A) (s : list A) : list A :=
  if decide (x ∈ s) then s else s ++ [x].

Definition delete `{EqDecision A} (x : A) (s : list A) : list A :=
  filter (fun y => y ≠ x) s.

End JsSet.

(** ** The runtime of a handler

    What the handlers see of the [ws] library, of the console and of the
    HTTP response object. *)
Module Runtime.

Inductive ReadyState := CONNECTING | OPEN | CLOSING | CLOSED.

#[global] Instance ReadyState_eq_dec : EqDecision ReadyState.
Proof. solve_decision. Defined.

(** A WebSocket object is known by its identity: its position in the
    table of the sockets the library has created so far. *)
Abbreviation socket := nat (only parsing).

Inductive exn :=
| SyntaxError
| NotOpen (ws : socket).

Inductive console_arg :=
| CText (s : string)
| CValue (v : JSON.value)
| CExn (e : exn).

(** What a run leaves behind for an observer *)
Inductive effect :=
| Send (ws : socket) (data : string)
| ConsoleLog (args : list console_arg)
| ConsoleError (args : list console_arg)
| ResJson (body : string).

(** The program's module-level bindings [G] and the [readyState] of every
    socket object *)
Record world (G : Type) := World { vars : G; sockets : list ReadyState }.
Arguments World {G} _ _.
Arguments vars {G} _.
Arguments sockets {G} _.

Record outcome (G A : Type) :=
  Outcome { final : world G; effects : list effect; completion : exn + A }.
Arguments Outcome {G A} _ _ _.
Arguments final {G A} _.
Arguments effects {G A} _.
Arguments completion {G A} _.

Definition handler (G A : Type) : Type := world G → outcome G A.

Section Monad.
Context {G : Type}.

Definition ret {A} (a : A) : handler G A :=
  fun w => Outcome w [] (inr a).

Definition throw {A} (e : exn) : handler G A :=
  fun w => Outcome w [] (inl e).

Definition bind {A B} (m : handler G A) (k : A → handler G B) : handler G B :=
  fun w =>
    let o := m w in
    match completion o with
    | inr a =>
        let o' := k a (final o) in
        Outcome (final o') (effects o ++ effects o') (completion o')
    | inl e => Outcome (final o) (effects o) (inl e)
    end.

(** [try { body } catch (e) { recover e }] *)
Definition try_catch {A} (body : handler G A) (recover : exn → handler G A)
  : handler G A :=
  fun w =>
    let o := body w in
    match completion o with
    | inr _ => o
    | inl e =>
        let o' := recover e (final o) in
        Outcome (final o') (effects o ++ effects o') (completion o')
    end.

Definition tell (x : effect) : handler G unit :=
  fun w => Outcome w [x] (inr tt).

Definition read {A} (f : G → A) : handler G A :=
  fun w => Outcome w [] (inr (f (vars w))).

Definition update (f : G → G) : handler G unit :=
  fun w => Outcome (World (f (vars w)) (sockets w)) [] (inr tt).

Definition console_log (args : list console_arg) : handler G unit :=
  tell (ConsoleLog args).

Definition console_error (args : list console_arg) : handler G unit :=
  tell (ConsoleError args).

(** [ws.readyState] *)
Definition readyState (ws : socket) : handler G ReadyState :=
  fun w => Outcome w [] (inr (default CLOSED (sockets w !! ws))).

(** [ws.send(data)].  The library puts the frame on the wire of an OPEN
    socket.  On a socket that is not OPEN it throws or, in its later
    versions and past CONNECTING, drops the data; the model takes the
    exception, so that a handler shown not to throw never relies on
    either behaviour. *)
Definition send (ws : socket) (data : string) : handler G unit :=
  fun w =>
    match sockets w !! ws with
    | Some OPEN => tell (Send ws data) w
    | _ => throw (NotOpen ws) w
    end.

(** [JSON.parse(text)] *)
Definition JSON_parse (text : string) : handler G JSON.value :=
  fun w =>
    match JSON.parse text with
    | Some v => ret v w
    | None => throw SyntaxError w
    end.

(** [set.forEach(body)] on the members [s] *)
Fixpoint forEach (s : list socket) (body : socket → handler G unit)
  : handler G unit :=
  match s with
  | [] => ret tt
  | x :: s' => bind (body x) (fun _ => forEach s' body)
  end.

(** *** Events of the library

    A socket enters the table OPEN when its [connection] event is
    emitted.  Its [readyState] becomes CLOSING when the closing handshake
    starts or the transport fails, and CLOSED right before its one [close]
    event; messages are emitted until then.  The listeners of a socket are
    attached in the connection listener, so a socket outside the table has
    none.  The programs attach no listener for the [error] event of a
    socket; that event is not part of the model. *)
Inductive ws_event :=
| Connection
| Message (ws : socket) (data : string)
| Closing (ws : socket)
| Close (ws : socket).

Record listeners := Listeners {
  on_connection : socket → handler G unit;
  on_message : socket → string → handler G unit;
  on_close : socket → handler G unit
}.

Definition open_socket : handler G unit :=
  fun w => Outcome (World (vars w) (sockets w ++ [OPEN])) [] (inr tt).

Definition set_readyState (ws : socket) (rs : ReadyState) : handler G unit :=
  fun w => Outcome (World (vars w) (<[ws := rs]> (sockets w))) [] (inr tt).

Definition emit (l : listeners) (e : ws_event) : handler G unit :=
  fun w =>
    match e with
    | Connection =>
        bind open_socket (fun _ => on_connection l (length (sockets w))) w
    | Message ws data =>
        match sockets w !! ws with
        | Some OPEN | Some CLOSING => on_message l ws data w
        | _ => ret tt w
        end
    | Closing ws =>
        match sockets w !! ws with
        | Some OPEN => set_readyState ws CLOSING w
        | _ => ret tt w
        end
    | Close ws =>
        match sockets w !! ws with
        | Some OPEN | Some CLOSING =>
            bind (set_readyState ws CLOSED) (fun _ => on_close l ws) w
        | _ => ret tt w
        end
    end.

End Monad.

Arguments ws_event : clear implicits.
Arguments listeners : clear implicits.

(** The frames sent to [ws], oldest first *)
Fixpoint sent_to (ws : socket) (es : list effect) : list string :=
  match es with
  | [] => []
  | Send ws' data :: es' =>
      if decide (ws' = ws) then data :: sent_to ws es' else sent_to ws es'
  | _ :: es' => sent_to ws es'
  end.

(** All frames sent, with their receivers *)
Fixpoint frames (es : list effect) : list (socket * string) :=
  match es with
  | [] => []
  | Send ws data :: es' => (ws, data) :: frames es'
  | _ :: es' => frames es'
  end.

Definition is_open {G} (w : world G) (ws : socket) : Prop :=
  sockets w !! ws = Some OPEN.

#[global] Instance is_open_dec {G} (w : world G) ws : Decision (is_open w ws).
Proof. unfold is_open. apply _. Defined.

End Runtime.

Declare Scope handler_scope.
Delimit Scope handler_scope with handler.
Notation "x ← m ; k" := (Runtime.bind m (fun x => k))
  (at level 20, m at level 100, k at level 200, only parsing) : handler_scope.
Notation "m ;; k" := (Runtime.bind m (fun _ => k))
  (at level 100, k at level 200, only parsing, right associativity) : handler_scope.

(** ** The metrics server, [system_monitor/server.js] *)
Module MetricsServer.
Import Runtime.
#[local] Open Scope handler_scope.

(** [let latestMetrics = {}] and [const clients = new Set()] *)
Record globals := Globals { latestMetrics : JSON.value; clients : list socket }.

Definition set_latestMetrics (v : JSON.value) (g : globals) : globals :=
  Globals v (clients g).

Definition set_clients (f : list socket → list socket) (g : globals) : globals :=
  Globals (latestMetrics g) (f (clients g)).

Definition initial : world globals :=
  World (Globals (JSON.JObject []) []) [].

(** [wss.on('connection', (ws) => ...)], lines 16 to 21; the two listeners
    it attaches to [ws] are [on_message] and [on_close] below. *)
Definition on_connection (ws : socket) : handler globals unit :=
  console_log [CText "New client connected"];;
  update (set_clients (JsSet.add ws));;
  metrics ← read latestMetrics;
  send ws (JSON.stringify metrics).

(** The arrow function given to [clients.forEach], lines 30 to 34 *)
Definition push (metrics : JSON.value) (client : socket) : handler globals unit :=
  state ← readyState client;
  if decide (state = OPEN)
  then send client (JSON.stringify metrics)
  else ret tt.

(** [ws.on('message', (message) => ...)], lines 23 to 38 *)
Definition on_message (ws : socket) (message : string) : handler globals unit :=
  try_catch
    (metrics ← JSON_parse message;
     update (set_latestMetrics metrics);;
     console_log [CText "Received metrics:"; CValue metrics];;
     members ← read clients;
     forEach members (push metrics))
    (fun e => console_error [CText "Error processing message:"; CExn e]).

(** [ws.on('close', () => ...)], lines 40 to 43 *)
Definition on_close (ws : socket) : handler globals unit :=
  console_log [CText "Client disconnected"];;
  update (set_clients (JsSet.delete ws)).

(** [app.get('/metrics', (req, res) => ...)], lines 50 to 52 *)
Definition get_metrics : handler globals unit :=
  metrics ← read latestMetrics;
  tell (ResJson (JSON.stringify metrics)).

Definition wss : listeners globals := Listeners on_connection on_message on_close.

(** What the event loop hands to the program: an event of a socket, or a
    GET request that reaches the [/metrics] route (a request answered by
    the static-file middleware of line 47 runs none of the code above). *)
Inductive event :=
| Ws (e : ws_event)
| GetMetrics.

Definition step (e : event) : handler globals unit :=
  match e with
  | Ws e => emit wss e
  | GetMetrics => get_metrics
  end.

(** The event loop runs the handlers one after the other, each to its
    end; an exception that leaves a handler ends the process. *)
Fixpoint run (es : list event) : handler globals unit :=
  match es with
  | [] => ret tt
  | e :: es' => step e;; run es'
  end.

(** The sockets that have connected and whose [close] event has not been
    emitted, oldest first *)
Definition live (w : world globals) : list socket :=
  filter (fun ws => sockets w !! ws ≠ Some CLOSED) (seq 0 (length (sockets w))).

Definition consistent (w : world globals) : Prop :=
  clients (vars w) = live w.

Definition is_connection (e : event) : bool :=
  match e with Ws Connection => true | _ => false end.

Definition is_close (e : event) : bool :=
  match e with Ws (Close _) => true | _ => false end.

(** How many clients connect in the course of [es] *)
Definition connections (es : list event) : nat :=
  length (List.filter is_connection es).

Definition no_close (es : list event) : Prop :=
  forallb (fun e => negb (is_close e)) es = true.

End MetricsServer.

(** ** The echo server that answers with a template literal *)
Module EchoServer.
Import Runtime.
#[local] Open Scope handler_scope.

Definition reply (message : string) : string := "Server received: " +:+ message.

Definition on_connection (ws : socket) : handler unit unit :=
  console_log [CText "New client connected"];;
  send ws "Hello from Raspberry Pi server!".

Definition on_message (ws : socket) (message : string) : handler unit unit :=
  console_log [CText "Received from client:"; CText message];;
  send ws (reply message).

Definition on_close (ws : socket) : handler unit unit :=
  console_log [CText "Client disconnected"].

Definition wss : listeners unit := Listeners on_connection on_message on_close.

End EchoServer.

(** ** The echo server that answers with a quoted string

    Its reply is written between apostrophes, so [${message}] is not a
    placeholder: the seven characters are part of the text. *)
Module EchoServerQuoted.
Import Runtime.
#[local] Open Scope handler_scope.

Definition reply (message : string) : string := "Server recieved: ${message}".

Definition on_connection (ws : socket) : handler unit unit :=
  console_log [CText "New client connected"];;
  send ws "Hello from Raspberry Pi server!".

Definition on_message (ws : socket) (message : string) : handler unit unit :=
  console_log [CText "Recieved from client:"; CText message];;
  send ws (reply message).

Definition on_close (ws : socket) : handler unit unit :=
  console_log [CText "Client disconnected"].

Definition wss : listeners unit := Listeners on_connection on_message on_close.

End EchoServerQuoted.

(** ** Sample texts and worlds *)
Module Sample.
Import Runtime MetricsServer.

Definition cpu42 : string := Text.lit "{'cpu':42}".
Definition cpu42_spaced : string := Text.lit "{ 'cpu' : 42.0 }".
Definition cpu42_value : JSON.value :=
  JSON.JObject [("cpu", JSON.JNumber (Number.round_decimal false 42 0))].
Definition hello : string := "hello".
Definition hello_quoted : string := Text.lit "'hello'".

(** Clients A, B and C are sockets 0, 1 and 2. *)
Definition three_clients : world globals :=
  World (Globals (JSON.JObject []) [0; 1; 2]) [OPEN; OPEN; OPEN].

(** The same with B in its closing handshake *)
Definition closing_client : world globals :=
  World (Globals (JSON.JObject []) [0; 1; 2]) [OPEN; CLOSING; OPEN].

Definition three_connections : list event :=
  [Ws Connection; Ws Connection; Ws Connection].

(** A client connects, then its closing handshake starts. *)
Definition connect_then_closing : list event :=
  [Ws Connection; Ws (Closing 0)].

(** What the embedded clients send every five seconds *)
Definition ping : string := "Ping from ESP32".

(** An echo server with one client *)
Definition one_client : world unit := World tt [OPEN].

End Sample.

(** ** The event loop of a program that only listens to sockets *)
Module EventLoop.
Import Runtime.

Fixpoint run {G} (l : listeners G) (es : list ws_event) : handler G unit :=
  match es with
  | [] => ret tt
  | e :: es' => bind (emit l e) (fun _ => run l es')
  end.

(** The socket an event belongs to; for [Connection], the socket the
    event creates *)
Definition socket_of {G} (w : world G) (e : ws_event) : socket :=
  match e with
  | Connection => length (sockets w)
  | Message ws _ | Closing ws | Close ws => ws
  end.

End EventLoop.

(** ** Ways to look at a run of the metrics server *)
Module Traffic.
Import Runtime MetricsServer.

Definition is_get (e : event) : bool :=
  match e with GetMetrics => true | _ => false end.

(** The run without its HTTP requests *)
Definition without_gets (es : list event) : list event :=
  List.filter (fun e => negb (is_get e)) es.

(** No message of the run is a JSON text. *)
Definition malformed (es : list event) : Prop :=
  ∀ ws message, Ws (Message ws message) ∈ es → JSON.parse message = None.

(** How many sockets have had their [close] event *)
Definition closed_count (w : world globals) : nat :=
  length (filter (fun state => state = CLOSED) (sockets w)).

(** What the HTTP requests of a run were answered *)
Fixpoint responses (es : list effect) : list string :=
  match es with
  | [] => []
  | ResJson body :: es' => body :: responses es'
  | _ :: es' => responses es'
  end.

End Traffic.

(** ** The Arduino runtime of the sketches

    The two sketches run on an ESP32 with the WiFi and WebSockets
    libraries.  The clock, the state of the WiFi link and the events of
    the socket come from outside: a sketch is run on the readings it
    takes of them. *)
Module Arduino.

#[local] Open Scope Z_scope.

(** Arithmetic on [uint32_t] *)
Definition uint32 (z : Z) : Z := z mod 2 ^ 32.

(** [millis()], [T] milliseconds after the start of the program: the
    counter is an [unsigned long] of 32 bits and starts again from zero
    every [2^32] milliseconds. *)
Definition millis (T : Z) : Z := uint32 T.

Definition NUL : ascii := "000"%char.
Definition LF : string := String "010"%char EmptyString.
Definition CRLF : string := String "013"%char LF.

(** [WStype_t] of the WebSockets library *)
Inductive WStype :=
| WStype_ERROR
| WStype_DISCONNECTED
| WStype_CONNECTED
| WStype_TEXT
| WStype_BIN
| WStype_FRAGMENT_TEXT_START
| WStype_FRAGMENT_BIN_START
| WStype_FRAGMENT
| WStype_FRAGMENT_FIN
| WStype_PING
| WStype_PONG.

(** What a sketch does to the world outside *)
Inductive output :=
| SerialBegin (baud : Z)
| SerialWrite (text : string)
| Delay (ms : Z)
| WiFiBegin (ssid password : string)
| WebSocketBegin (host : string) (port : Z) (url : string)
| WebSocketBeginSSL (host : string) (port : Z) (url : string)
| WebSocketOnEvent
| WebSocketSetReconnectInterval (ms : Z)
| Frame (text : string).

Definition print (text : string) : output := SerialWrite text.
Definition println (text : string) : output := SerialWrite (text +:+ CRLF).

(** The bytes a [char*] stands for: those before the first zero byte *)
Fixpoint c_str (bytes : string) : string :=
  match bytes with
  | EmptyString => EmptyString
  | String c rest => if Ascii.eqb c NUL then EmptyString else String c (c_str rest)
  end.

Fixpoint has_nul (bytes : string) : bool :=
  match bytes with
  | EmptyString => false
  | String c rest => Ascii.eqb c NUL || has_nul rest
  end.

(** What [%s] prints for a pointer: the C string it points to; for a null
    pointer the C library of the board prints [(null)]. *)
Definition percent_s (p : option string) : string :=
  match p with
  | Some bytes => c_str bytes
  | None => "(null)"
  end.

(** The variables a sketch keeps between two calls of [loop]: its
    [static uint32_t lastTime], and whether the client object of the
    library is connected. *)
Record sketch := Sketch { lastTime : Z; connected : bool }.

Definition boot : sketch := Sketch 0 false.

(** [webSocket.sendTXT(text)]: the frame goes out if the client is
    connected and is dropped otherwise. *)
Definition sendTXT (text : string) (s : sketch) : list output :=
  if connected s then [Frame text] else [].

(** An event of the socket as the library hands it to the callback: its
    type and the [payload] pointer, null or pointing to bytes. *)
Definition ws_event : Type := WStype * option string.

(** The library marks the client connected right before the CONNECTED
    event and not connected right before the DISCONNECTED event. *)
Definition mark (type : WStype) (s : sketch) : sketch :=
  match type with
  | WStype_CONNECTED => Sketch (lastTime s) true
  | WStype_DISCONNECTED => Sketch (lastTime s) false
  | _ => s
  end.

(** [webSocket.loop()] with the events that have come in: the callback
    [onEvent] runs once for each. *)
Fixpoint webSocket_loop (onEvent : WStype → option string → sketch → list output)
    (events : list ws_event) (s : sketch) : sketch * list output :=
  match events with
  | [] => (s, [])
  | (type, payload) :: events' =>
      let s1 := mark type s in
      let out := onEvent type payload s1 in
      let (s2, out') := webSocket_loop onEvent events' s1 in
      (s2, out ++ out')
  end.

(** The end of [loop] in both sketches:
    [if (millis() - lastTime > 5000) { lastTime = millis(); sendTXT(..) }],
    with the clock read at [T1] and, if the ping is due, again at [T2]. *)
Definition ping_due (now last : Z) : bool := 5000 <? uint32 (now - last).

Definition ping_timer (T1 T2 : Z) (s : sketch) : sketch * list output :=
  if ping_due (millis T1) (lastTime s)
  then (Sketch (millis T2) (connected s), sendTXT "Ping from ESP32" s)
  else (s, []).

(** [while (WiFi.status() != WL_CONNECTED) { body }] on the readings of
    the status, [true] for WL_CONNECTED.  [None]: the readings end with the
    loop still waiting. *)
Fixpoint await_link (body : list output) (statuses : list bool)
  : option (list output * list bool) :=
  match statuses with
  | [] => None
  | true :: rest => Some ([], rest)
  | false :: rest =>
      match await_link body rest with
      | Some (out, rest') => Some (body ++ out, rest')
      | None => None
      end
  end.

(** What one call of [loop] meets: the readings of the WiFi status it
    takes, the events that have come in, and the times of its readings of
    the clock. *)
Record tick := Tick {
  statuses : list bool;
  events : list ws_event;
  T1 : Z;
  T2 : Z
}.

(** A trace with the time of each output *)
Definition stamp (T : Z) (out : list output) : list (Z * output) :=
  map (fun o => (T, o)) out.

Definition is_ping (entry : Z * output) : bool :=
  match entry with
  | (_, Frame text) => String.eqb text "Ping from ESP32"
  | _ => false
  end.

(** The times of the pings of a trace *)
Definition ping_times (trace : list (Z * output)) : list Z :=
  map fst (List.filter is_ping trace).

(** Each time is more than [5000] after the one before, the first more
    than [5000] after [T]. *)
Fixpoint spaced (T : Z) (times : list Z) : Prop :=
  match times with
  | [] => True
  | T' :: times' => T + 5000 < T' ∧ spaced T' times'
  end.

(** Calls of [loop] follow each other in time, each within [2^32 - 5000]
    milliseconds of the start of the one before. *)
Fixpoint regular (prev : tick) (ticks : list tick) : Prop :=
  match ticks with
  | [] => True
  | k :: ticks' =>
      T2 prev <= T1 k ∧ T1 k <= T2 k ∧ T2 k - T1 prev < 2 ^ 32 - 5000
      ∧ regular k ticks'
  end.

Definition power_on : tick := Tick [] [] 0 0.

End Arduino.

(** ** The client sketch for the local server, [ws_connection_client.ino] *)
Module WsConnectionClient.
Import Arduino.
#[local] Open Scope Z_scope.

Definition ssid : string := "wifi ssid".
Definition password : string := "wifi password".

Definition webSocketEvent (type : WStype) (payload : option string) (s : sketch)
  : list output :=
  match type with
  | WStype_DISCONNECTED => [println "[WSc] Disconnected"]
  | WStype_CONNECTED =>
      println "[WSc] Connected to server" :: sendTXT "Hello from ESP32!" s
  | WStype_TEXT => [print ("[WSc] Received: " +:+ percent_s payload +:+ LF)]
  | _ => []
  end.

Definition setup (statuses : list bool) : option (list output * list bool) :=
  match await_link [Delay 1000; println "Connecting to WiFi..."] statuses with
  | Some (out, rest) =>
      Some ([SerialBegin 115200; WiFiBegin ssid password] ++ out
            ++ [println "Connected to WiFi";
                WebSocketBegin "Pi's Ip address" 8080 "/";
                WebSocketOnEvent],
            rest)
  | None => None
  end.

Definition loop (k : tick) (s : sketch) : sketch * list (Z * output) :=
  let (s1, out1) := webSocket_loop webSocketEvent (events k) s in
  let (s2, out2) := ping_timer (T1 k) (T2 k) s1 in
  (s2, stamp (T1 k) out1 ++ stamp (T2 k) out2).

Fixpoint run (ticks : list tick) (s : sketch) : sketch * list (Z * output) :=
  match ticks with
  | [] => (s, [])
  | k :: ticks' =>
      let (s1, out1) := loop k s in
      let (s2, out2) := run ticks' s1 in
      (s2, out1 ++ out2)
  end.

End WsConnectionClient.

(** ** The client sketch for the tunnel, [remote_connection_internet.ino] *)
Module RemoteConnectionInternet.
Import Arduino.
#[local] Open Scope Z_scope.

Definition ssid : string := "wifi ssid".
Definition password : string := "wifi password".

Definition or_unknown (payload : option string) : option string :=
  match payload with
  | Some bytes => Some bytes
  | None => Some "Unknown"
  end.

Definition webSocketEvent (type : WStype) (payload : option string) (s : sketch)
  : list output :=
  match type with
  | WStype_DISCONNECTED =>
      [print ("[WSc] Disconnected, reason: " +:+ percent_s (or_unknown payload) +:+ LF)]
  | WStype_CONNECTED =>
      println "[WSc] Connected to server" :: sendTXT "Hello from ESP32!" s
  | WStype_TEXT => [print ("[WSc] Received: " +:+ percent_s payload +:+ LF)]
  | WStype_ERROR =>
      [print ("[WSc] Error: " +:+ percent_s (or_unknown payload) +:+ LF)]
  | _ => []
  end.

Definition ensureWiFi (statuses : list bool) : option (list output * list bool) :=
  match statuses with
  | [] => None
  | true :: rest => Some ([], rest)
  | false :: rest =>
      match await_link [Delay 500; print "."] rest with
      | Some (out, rest') =>
          Some ([println "WiFi disconnected, reconnecting..."; WiFiBegin ssid password]
                ++ out ++ [println (LF +:+ "WiFi reconnected")],
                rest')
      | None => None
      end
  end.

Definition setup (statuses : list bool) : option (list output * list bool) :=
  match await_link [Delay 500; print "."] statuses with
  | Some (out, rest) =>
      Some ([SerialBegin 115200; WiFiBegin ssid password; print "Connecting to WiFi"]
            ++ out
            ++ [println (LF +:+ "Connected to WiFi");
                WebSocketBeginSSL "domain name of the ngrok tunnel" 443 "/";
                WebSocketOnEvent;
                WebSocketSetReconnectInterval 5000],
            rest)
  | None => None
  end.

(** [None]: the call does not return on these readings, it is still
    waiting for the link in [ensureWiFi]. *)
Definition loop (k : tick) (s : sketch) : option (sketch * list (Z * output)) :=
  match ensureWiFi (statuses k) with
  | Some (out0, _) =>
      let (s1, out1) := webSocket_loop webSocketEvent (events k) s in
      let (s2, out2) := ping_timer (T1 k) (T2 k) s1 in
      Some (s2, stamp (T1 k) (out0 ++ out1) ++ stamp (T2 k) out2)
  | None => None
  end.

Fixpoint run (ticks : list tick) (s : sketch) : option (sketch * list (Z * output)) :=
  match ticks with
  | [] => Some (s, [])
  | k :: ticks' =>
      match loop k s with
      | Some (s1, out1) =>
          match run ticks' s1 with
          | Some (s2, out2) => Some (s2, out1 ++ out2)
          | None => None
          end
      | None => None
      end
  end.

End RemoteConnectionInternet.

(** ** Sample runs of the sketches *)
Module ArduinoSample.
Import Arduino.
#[local] Open Scope Z_scope.

(** The counter of [millis] starts again between these two readings. *)
Definition before_wrap : Z := 2 ^ 32 - 1000.
Definition after_wrap : Z := 2 ^ 32 + 4500.

(** A connected client whose [loop] runs every three seconds *)
Definition every_three_seconds : list tick :=
  [Tick [true] [(WStype_CONNECTED, Some "/")] 3000 3000;
   Tick [true] [] 6000 6001;
   Tick [true] [] 9000 9000;
   Tick [true] [] 12000 12002].

End ArduinoSample.

(** * Properties *)

Import Runtime.

(** ** The JSON object on the sample texts *)

Example lit_cpu42 :
  map Text.code (list_ascii_of_string Sample.cpu42)
  = [123; 34; 99; 112; 117; 34; 58; 52; 50; 125]%N.
Proof. reflexivity. Qed.

Example parse_cpu42 : JSON.parse Sample.cpu42 = Some Sample.cpu42_value.
Proof. vm_compute. reflexivity. Qed.

Example parse_cpu42_spaced : JSON.parse Sample.cpu42_spaced = Some Sample.cpu42_value.
Proof. vm_compute. reflexivity. Qed.

Example stringify_cpu42 :
  JSON.stringify <$> JSON.parse Sample.cpu42 = Some Sample.cpu42.
Proof. vm_compute. reflexivity. Qed.

Example stringify_cpu42_spaced :
  JSON.stringify <$> JSON.parse Sample.cpu42_spaced = Some Sample.cpu42.
Proof. vm_compute. reflexivity. Qed.

Example parse_hello : JSON.parse Sample.hello = None.
Proof. vm_compute. reflexivity. Qed.

Example parse_hello_quoted :
  JSON.parse Sample.hello_quoted = Some (JSON.JString "hello").
Proof. vm_compute. reflexivity. Qed.

Example stringify_empty_object : JSON.stringify (JSON.JObject []) = "{}".
Proof. reflexivity. Qed.

(** Numbers come back in their shortest form, keys in the order of the
    engine, escapes as the characters they stand for. *)
Example stringify_numbers :
  JSON.stringify <$> JSON.parse "[1.0, 1e2, 0.1, 1e21, -0, 9007199254740993, 1e400]"
  = Some "[1,100,0.1,1e+21,0,9007199254740992,null]".
Proof. vm_compute. reflexivity. Qed.

Example stringify_keys :
  JSON.stringify <$> JSON.parse (Text.lit "{'b':1,'a':2,'b':3,'10':4,'9':5}")
  = Some (Text.lit "{'9':5,'10':4,'b':3,'a':2}").
Proof. vm_compute. reflexivity. Qed.

Example stringify_escapes :
  JSON.stringify <$> JSON.parse (Text.lit "'A\/\u000a'")
  = Some (Text.lit "'A/\n'").
Proof. vm_compute. reflexivity. Qed.

Example parse_rejects :
  map JSON.parse ["01"; "[1,]"; "{a:1}"; "tru"; "1."; "[1 2]"; "[[1]"; EmptyString]
  = [None; None; None; None; None; None; None; None].
Proof. vm_compute. reflexivity. Qed.

(** ** Handlers *)

Section Handlers.
Context {G : Type}.
Implicit Types (w : world G) (ws client : socket) (es : list effect).

Lemma sent_to_app ws es es' :
  sent_to ws (es ++ es') = sent_to ws es ++ sent_to ws es'.
Proof.
  induction es as [|[c d| | |] es IH]; simpl; auto.
  destruct (decide (c = ws)); simpl; congruence.
Qed.

Lemma frames_app es es' : frames (es ++ es') = frames es ++ frames es'.
Proof.
  induction es as [|[c d| | |] es IH]; simpl; auto. congruence.
Qed.

Lemma sent_to_frames ws es :
  sent_to ws es = snd <$> filter (fun f => f.1 = ws) (frames es).
Proof.
  induction es as [|[c d| | |] es IH]; simpl; auto.
  rewrite filter_cons. simpl. destruct (decide (c = ws)); [|done].
  rewrite fmap_cons. simpl. congruence.
Qed.

Lemma send_open ws data w :
  is_open w ws → send ws data w = Outcome w [Send ws data] (inr tt).
Proof. unfold is_open, send. intros ->. reflexivity. Qed.

Lemma frames_map_Send data (l : list socket) :
  frames (((fun c => Send c data) <$> l)) = (fun c => (c, data)) <$> l.
Proof. induction l; [done|]. rewrite !fmap_cons. simpl. congruence. Qed.

Lemma sent_to_map_Send data ws (l : list socket) :
  sent_to ws (((fun c => Send c data) <$> l))
  = replicate (length (filter (fun c => c = ws) l)) data.
Proof.
  induction l as [|c l IH]; [reflexivity|].
  rewrite fmap_cons, filter_cons. simpl.
  destruct (decide (c = ws)); simpl; congruence.
Qed.

End Handlers.

(** ** The metrics server *)

Section Metrics.
Import MetricsServer.
Implicit Types (w : world globals) (ws client A K : socket) (v : JSON.value).
Implicit Types (e : event) (evs : list event).

Lemma push_open v client w :
  is_open w client →
  push v client w = Outcome w [Send client (JSON.stringify v)] (inr tt).
Proof.
  unfold is_open, push, bind, readyState, send. intros Ho.
  simpl. rewrite Ho. simpl. rewrite Ho. reflexivity.
Qed.

Lemma push_skip v client w :
  ¬ is_open w client → push v client w = Outcome w [] (inr tt).
Proof.
  unfold is_open, push, bind, readyState, send. simpl. intros Hn.
  destruct (sockets w !! client) as [[]|]; simpl; try reflexivity.
  contradiction.
Qed.

(** The loop sends the payload once to each open member, in the order of
    the set, and changes nothing. *)
Lemma forEach_push v (members : list socket) w :
  forEach members (push v) w
  = Outcome w ((fun c => Send c (JSON.stringify v)) <$> filter (is_open w) members)
      (inr tt).
Proof.
  induction members as [|c members IH]; [reflexivity|].
  simpl. unfold bind. rewrite filter_cons.
  destruct (decide (is_open w c)) as [Ho|Ho].
  - rewrite push_open by done. simpl. rewrite IH. reflexivity.
  - rewrite push_skip by done. simpl. rewrite IH. reflexivity.
Qed.

(** The two paths of the message listener *)
Lemma on_message_rejected ws message w :
  JSON.parse message = None →
  on_message ws message w
  = Outcome w [ConsoleError [CText "Error processing message:"; CExn SyntaxError]]
      (inr tt).
Proof.
  intros Hp. unfold on_message, try_catch, bind, JSON_parse. rewrite Hp. reflexivity.
Qed.

Lemma on_message_accepted ws message v w :
  JSON.parse message = Some v →
  on_message ws message w
  = Outcome (World (Globals v (clients (vars w))) (sockets w))
      (ConsoleLog [CText "Received metrics:"; CValue v]
       :: ((fun c => Send c (JSON.stringify v))
             <$> filter (is_open w) (clients (vars w))))
      (inr tt).
Proof.
  intros Hp. unfold on_message, try_catch, bind, JSON_parse. rewrite Hp. simpl.
  rewrite forEach_push. reflexivity.
Qed.

End Metrics.

(** ** The event loop of the metrics server *)

Section EventLoop.
Import MetricsServer.
Implicit Types (w : world globals) (ws client A K : socket) (v : JSON.value).
Implicit Types (e : event) (evs : list event).

Lemma step_connection w :
  step (Ws Connection) w
  = Outcome
      (World (Globals (latestMetrics (vars w))
                (JsSet.add (length (sockets w)) (clients (vars w))))
         (sockets w ++ [OPEN]))
      [ConsoleLog [CText "New client connected"];
       Send (length (sockets w)) (JSON.stringify (latestMetrics (vars w)))]
      (inr tt).
Proof.
  unfold step, emit, bind, open_socket, on_connection, bind. simpl.
  rewrite send_open; [reflexivity|].
  unfold is_open. simpl. by apply list_lookup_middle.
Qed.

Lemma step_message ws message w :
  step (Ws (Message ws message)) w
  = if decide (sockets w !! ws = Some OPEN ∨ sockets w !! ws = Some CLOSING)
    then on_message ws message w
    else Outcome w [] (inr tt).
Proof.
  unfold step, emit, ret.
  case_decide as Hd; destruct (sockets w !! ws) as [[]|];
    first [done | exfalso; intuition congruence].
Qed.

Lemma step_closing ws w :
  step (Ws (Closing ws)) w
  = Outcome
      (if decide (is_open w ws)
       then World (vars w) (<[ws := CLOSING]> (sockets w)) else w)
      [] (inr tt).
Proof.
  unfold step, emit, ret, set_readyState, is_open.
  case_decide as Hd; destruct (sockets w !! ws) as [[]|];
    first [done | exfalso; intuition congruence].
Qed.

Lemma step_close ws w :
  step (Ws (Close ws)) w
  = if decide (sockets w !! ws = Some OPEN ∨ sockets w !! ws = Some CLOSING)
    then Outcome
           (World (Globals (latestMetrics (vars w)) (JsSet.delete ws (clients (vars w))))
              (<[ws := CLOSED]> (sockets w)))
           [ConsoleLog [CText "Client disconnected"]] (inr tt)
    else Outcome w [] (inr tt).
Proof.
  unfold step, emit, ret.
  case_decide as Hd; destruct (sockets w !! ws) as [[]|];
    first [done | exfalso; intuition congruence].
Qed.

Lemma step_get_metrics w :
  step GetMetrics w
  = Outcome w [ResJson (JSON.stringify (latestMetrics (vars w)))] (inr tt).
Proof. reflexivity. Qed.

Lemma on_message_outcome ws message w :
  ∃ v' fs,
    on_message ws message w
    = Outcome (World (Globals v' (clients (vars w))) (sockets w)) fs (inr tt)
    ∧ ∀ c d, (c, d) ∈ frames fs → is_open w c.
Proof.
  destruct (JSON.parse message) as [v|] eqn:Hp.
  - eexists _, _. split; [by apply on_message_accepted|].
    intros c d. simpl. rewrite frames_map_Send.
    intros (c' & [= <- _] & Hc)%list_elem_of_fmap.
    by apply list_elem_of_filter in Hc as [? _].
  - exists (latestMetrics (vars w)), [ConsoleError [CText "Error processing message:"; CExn SyntaxError]].
    split; [|simpl; intros c d Hin; by apply elem_of_nil in Hin].
    rewrite on_message_rejected by done. by destruct w as [[] ?].
Qed.

(** No handler lets an exception out: the process keeps running. *)
Lemma step_normal e w : completion (step e w) = inr tt.
Proof.
  destruct e as [[|ws m|ws|ws]|].
  - by rewrite step_connection.
  - rewrite step_message. case_decide; [|done].
    by destruct (on_message_outcome ws m w) as (? & ? & -> & _).
  - by rewrite step_closing.
  - rewrite step_close. by case_decide.
  - done.
Qed.

Lemma run_cons e evs w :
  run (e :: evs) w
  = Outcome (final (run evs (final (step e w))))
      (effects (step e w) ++ effects (run evs (final (step e w))))
      (completion (run evs (final (step e w)))).
Proof. simpl. unfold bind. by rewrite step_normal. Qed.

Lemma run_cons_effects e evs w :
  effects (run (e :: evs) w)
  = effects (step e w) ++ effects (run evs (final (step e w))).
Proof. by rewrite run_cons. Qed.


Lemma run_app evs evs' w :
  final (run (evs ++ evs') w) = final (run evs' (final (run evs w)))
  ∧ effects (run (evs ++ evs') w)
    = effects (run evs w) ++ effects (run evs' (final (run evs w))).
Proof.
  revert w. induction evs as [|e evs IH]; intros w; [done|].
  rewrite <- app_comm_cons, !run_cons. simpl.
  destruct (IH (final (step e w))) as [-> ->]. by rewrite app_assoc.
Qed.

End EventLoop.

(** ** The active set is the set of live sockets *)

Section ActiveSet.
Import MetricsServer.
Implicit Types (w : world globals) (g : globals) (ws client A K : socket).
Implicit Types (e : event) (evs : list event) (s : list ReadyState).

Lemma filter_ext_elem {X} (P Q : X → Prop)
    `{!∀ x, Decision (P x)} `{!∀ x, Decision (Q x)} (l : list X) :
  (∀ x, x ∈ l → P x ↔ Q x) → filter P l = filter Q l.
Proof.
  induction l as [|x l IH]; intros Hext; [done|].
  rewrite !filter_cons, IH by (intros; apply Hext; by right).
  destruct (decide (P x)) as [HP|HP], (decide (Q x)) as [HQ|HQ]; try done;
    exfalso; apply (Hext x) in HP || apply (Hext x) in HQ; try done; by left.
Qed.

Lemma length_delete (l : list socket) ws :
  NoDup l → ws ∈ l → length (JsSet.delete ws l) = length l - 1.
Proof.
  unfold JsSet.delete. induction 1 as [|x l Hx Hl IH]; intros Hin.
  - by apply elem_of_nil in Hin.
  - rewrite filter_cons. destruct (decide (x ≠ ws)) as [Hne|Heq].
    + apply elem_of_cons in Hin as [->|Hin]; [done|].
      simpl. rewrite IH by done. destruct l; [by apply elem_of_nil in Hin|simpl; lia].
    + assert (x = ws) as -> by (destruct (decide (x = ws)); tauto).
      rewrite (filter_ext_elem _ (fun _ => True)).
      * clear. simpl. induction l as [|y l IH]; [done|].
        rewrite filter_cons_True by done. simpl. lia.
      * intros y Hy. split; [done|]. intros _ ->. done.
Qed.

Lemma elem_of_live w ws :
  ws ∈ live w ↔ ∃ state, sockets w !! ws = Some state ∧ state ≠ CLOSED.
Proof.
  unfold live. rewrite list_elem_of_filter, elem_of_seq. split.
  - intros [Hn [_ Hlt]]. simpl in Hn, Hlt.
    destruct (lookup_lt_is_Some_2 (sockets w) ws Hlt) as [state Hs].
    exists state. split; [done|]. intros ->. done.
  - intros (state & Hs & Hn). split; [rewrite Hs; by intros [= ->]|].
    split; [lia|]. simpl. by eapply lookup_lt_Some.
Qed.

Lemma NoDup_live w : NoDup (live w).
Proof. apply NoDup_filter, NoDup_seq. Qed.

Lemma live_connection g g' s :
  live (World g (s ++ [OPEN])) = live (World g' s) ++ [length s].
Proof.
  unfold live. simpl. rewrite length_app, Nat.add_1_r, seq_S, filter_app. simpl.
  f_equal.
  - apply filter_ext_elem. intros i [_ Hi]%elem_of_seq.
    by rewrite lookup_app_l by (simpl in Hi; lia).
  - rewrite filter_cons_True, filter_nil; [done|].
    by rewrite list_lookup_middle.
Qed.

Lemma live_closing g w ws :
  is_open w ws → live (World g (<[ws := CLOSING]> (sockets w))) = live w.
Proof.
  unfold live, is_open. simpl. intros Ho. rewrite length_insert.
  apply filter_ext_elem. intros i _.
  destruct (decide (i = ws)) as [->|Hne].
  - rewrite list_lookup_insert_eq by (by eapply lookup_lt_Some). rewrite Ho. done.
  - by rewrite list_lookup_insert_ne.
Qed.

Lemma live_close g w ws :
  is_Some (sockets w !! ws) →
  live (World g (<[ws := CLOSED]> (sockets w))) = JsSet.delete ws (live w).
Proof.
  unfold live, JsSet.delete. simpl. intros Hs%lookup_lt_is_Some.
  rewrite length_insert, list_filter_filter.
  apply filter_ext_elem. intros i _.
  destruct (decide (i = ws)) as [->|Hne].
  - rewrite list_lookup_insert_eq by done. tauto.
  - rewrite list_lookup_insert_ne by done. tauto.
Qed.

Lemma consistent_initial : consistent initial.
Proof. reflexivity. Qed.

Lemma consistent_step e w : consistent w → consistent (final (step e w)).
Proof.
  unfold consistent. intros Hc. destruct e as [[|ws m|ws|ws]|].
  - rewrite step_connection. simpl.
    rewrite (live_connection _ (vars w)). unfold JsSet.add.
    destruct (decide (length (sockets w) ∈ clients (vars w))) as [Hin|_].
    + rewrite Hc in Hin. apply elem_of_live in Hin as (state & Hs & _).
      apply lookup_lt_Some in Hs. lia.
    + rewrite Hc. by destruct w.
  - rewrite step_message. case_decide; [|done].
    destruct (on_message_outcome ws m w) as (v' & fs & -> & _). done.
  - rewrite step_closing. case_decide; [|done]. simpl.
    by rewrite live_closing.
  - rewrite step_close. case_decide as Hd; [|done]. simpl.
    rewrite live_close, Hc; [done|]. destruct Hd as [-> | ->]; by eexists.
  - done.
Qed.

Lemma consistent_run evs w : consistent w → consistent (final (run evs w)).
Proof.
  revert w. induction evs as [|e evs IH]; intros w Hc; [done|].
  rewrite run_cons. simpl. by apply IH, consistent_step.
Qed.

End ActiveSet.

(** ** What a run sends, and to whom *)

Section Traffic.
Import MetricsServer.
Implicit Types (w : world globals) (ws client A K : socket).
Implicit Types (e : event) (evs : list event).

Lemma not_elem_of_frames_sent_to ws (es : list effect) :
  (∀ c d, (c, d) ∈ frames es → c ≠ ws) → sent_to ws es = [].
Proof.
  induction es as [|[c d| | |] es IH]; simpl; intros Hf; auto.
  destruct (decide (c = ws)) as [->|_].
  - exfalso. eapply Hf; [left|done].
  - apply IH. intros c' d' Hin. apply (Hf c' d'). by right.
Qed.

(** A frame goes to a socket that is open when the handler returns. *)
Lemma step_frames_open e w c d :
  (c, d) ∈ frames (effects (step e w)) → is_open (final (step e w)) c.
Proof.
  destruct e as [[|ws m|ws|ws]|].
  - rewrite step_connection. simpl. intros [= -> _]%list_elem_of_singleton.
    by apply list_lookup_middle.
  - rewrite step_message. case_decide; [|by intros ?%elem_of_nil].
    destruct (on_message_outcome ws m w) as (v' & fs & -> & Hfs). simpl. apply Hfs.
  - rewrite step_closing. by intros ?%elem_of_nil.
  - rewrite step_close. case_decide; by intros ?%elem_of_nil.
  - by intros ?%elem_of_nil.
Qed.

(** A handler closes no socket but the one whose [close] event it serves. *)
Lemma step_sockets_length e w :
  length (sockets (final (step e w)))
  = length (sockets w) + (if is_connection e then 1 else 0).
Proof.
  destruct e as [[|ws m|ws|ws]|]; simpl is_connection.
  - rewrite step_connection. simpl. by rewrite length_app.
  - rewrite step_message. case_decide; [|simpl; lia].
    destruct (on_message_outcome ws m w) as (v' & fs & -> & _). simpl. lia.
  - rewrite step_closing. case_decide; simpl; rewrite ?length_insert; lia.
  - rewrite step_close. case_decide; simpl; rewrite ?length_insert; lia.
  - simpl. lia.
Qed.

Lemma run_sockets_length evs w :
  length (sockets (final (run evs w))) = length (sockets w) + connections evs.
Proof.
  revert w. unfold connections.
  induction evs as [|e evs IH]; intros w; [simpl; lia|].
  rewrite run_cons. simpl. rewrite IH, step_sockets_length.
  destruct (is_connection e); simpl; lia.
Qed.

Lemma run_frames_allocated evs w c d :
  (c, d) ∈ frames (effects (run evs w)) → c < length (sockets (final (run evs w))).
Proof.
  revert w. induction evs as [|e evs IH]; intros w; [by intros ?%elem_of_nil|].
  rewrite run_cons. simpl. rewrite frames_app, elem_of_app. intros [Hin|Hin].
  - apply step_frames_open, lookup_lt_Some in Hin.
    rewrite run_sockets_length. lia.
  - by apply IH.
Qed.

(** Once closed, a socket stays closed and is sent nothing. *)
Lemma step_closed e w K :
  sockets w !! K = Some CLOSED →
  sockets (final (step e w)) !! K = Some CLOSED
  ∧ sent_to K (effects (step e w)) = [].
Proof.
  intros Hk. destruct e as [[|ws m|ws|ws]|].
  - rewrite step_connection. simpl. split; [by apply lookup_app_l_Some|].
    case_decide; [|done]. subst K. apply lookup_lt_Some in Hk. lia.
  - rewrite step_message. case_decide; [|done].
    destruct (on_message_outcome ws m w) as (v' & fs & -> & Hfs). simpl.
    split; [done|]. apply not_elem_of_frames_sent_to.
    intros c d' Hin%Hfs ->. unfold is_open in Hin. congruence.
  - rewrite step_closing. split; [|done]. case_decide as Ho; [|done]. simpl.
    rewrite list_lookup_insert_ne; [done|]. intros ->. unfold is_open in Ho. congruence.
  - rewrite step_close. case_decide as Hd; [|done]. simpl. split; [|done].
    rewrite list_lookup_insert_ne; [done|]. intros ->. destruct Hd; congruence.
  - done.
Qed.

Lemma run_closed evs w K :
  sockets w !! K = Some CLOSED →
  sockets (final (run evs w)) !! K = Some CLOSED
  ∧ sent_to K (effects (run evs w)) = [].
Proof.
  revert w. induction evs as [|e evs IH]; intros w Hk; [done|].
  rewrite run_cons. simpl. rewrite sent_to_app.
  destruct (step_closed e w K Hk) as [Hk' ->].
  destruct (IH _ Hk') as [-> ->]. done.
Qed.

(** Without a [close] event no socket is closed. *)
Lemma run_no_close evs w :
  no_close evs → CLOSED ∉ sockets w → CLOSED ∉ sockets (final (run evs w)).
Proof.
  unfold no_close. revert w.
  induction evs as [|e evs IH]; intros w Hn Hw; [done|].
  simpl in Hn. apply andb_prop in Hn as [He Hn].
  rewrite run_cons. simpl. apply IH; [done|]. clear IH Hn.
  destruct e as [[|ws m|ws|ws]|]; try done.
  - rewrite step_connection. simpl. rewrite elem_of_app, list_elem_of_singleton.
    intros [?|?]; done.
  - rewrite step_message. case_decide; [|done].
    by destruct (on_message_outcome ws m w) as (v' & fs & -> & _).
  - rewrite step_closing. case_decide; [|done]. simpl.
    intros [i Hi]%list_elem_of_lookup.
    apply list_lookup_insert_Some in Hi as [(_ & ? & _)|[_ Hi]]; [done|].
    apply Hw, list_elem_of_lookup. eauto.
Qed.

End Traffic.

(** ** The specification of the metrics server *)

Section MetricsSpec.
Import MetricsServer.
Implicit Types (w : world globals) (ws client A K c : socket) (v : JSON.value).
Implicit Types (e : event) (evs : list event).

Lemma occurrences_NoDup (l : list socket) c :
  NoDup l → c ∈ l → length (filter (fun x => x = c) l) = 1.
Proof.
  induction 1 as [|x l Hx Hl IH]; intros Hin; [by apply elem_of_nil in Hin|].
  rewrite filter_cons. destruct (decide (x = c)) as [->|Hne].
  - rewrite (filter_ext_elem _ (fun _ => False)).
    + clear. simpl. f_equal. induction l as [|y l IH]; [done|].
      by rewrite filter_cons_False by tauto.
    + intros y Hy. split; [intros ->; done|done].
  - apply elem_of_cons in Hin as [->|Hin]; [done|]. by apply IH.
Qed.

Lemma occurrences_absent (l : list socket) c :
  c ∉ l → length (filter (fun x => x = c) l) = 0.
Proof.
  intros Hn. rewrite (filter_ext_elem _ (fun _ => False)).
  - clear. induction l as [|y l IH]; [done|]. by rewrite filter_cons_False by tauto.
  - intros y Hy. split; [intros ->; done|done].
Qed.

(** What an accepted message sends to one socket *)
Lemma accepted_sent_to ws message v w c :
  JSON.parse message = Some v → NoDup (clients (vars w)) →
  sent_to c (effects (on_message ws message w))
  = if decide (c ∈ clients (vars w) ∧ is_open w c) then [JSON.stringify v] else [].
Proof.
  intros Hp Hnd. rewrite (on_message_accepted _ _ v) by done. simpl.
  rewrite sent_to_map_Send. case_decide as Hc.
  - rewrite occurrences_NoDup; [done|by apply NoDup_filter|].
    apply list_elem_of_filter. tauto.
  - rewrite occurrences_absent; [done|].
    rewrite list_elem_of_filter. tauto.
Qed.

Lemma reachable_NoDup evs : NoDup (clients (vars (final (run evs initial)))).
Proof.
  rewrite (consistent_run evs initial consistent_initial). apply NoDup_live.
Qed.

Lemma reachable_member evs ws :
  ws ∈ clients (vars (final (run evs initial)))
  ↔ ∃ state, sockets (final (run evs initial)) !! ws = Some state ∧ state ≠ CLOSED.
Proof.
  rewrite (consistent_run evs initial consistent_initial). apply elem_of_live.
Qed.

(** Server-side sockets are never CONNECTING. *)
Lemma run_not_connecting evs w :
  CONNECTING ∉ sockets w → CONNECTING ∉ sockets (final (run evs w)).
Proof.
  revert w. induction evs as [|e evs IH]; intros w Hw; [done|].
  rewrite run_cons. simpl. apply IH. clear IH.
  destruct e as [[|ws m|ws|ws]|]; try done.
  - rewrite step_connection. simpl. rewrite elem_of_app, list_elem_of_singleton.
    intros [?|?]; done.
  - rewrite step_message. case_decide; [|done].
    by destruct (on_message_outcome ws m w) as (v' & fs & -> & _).
  - rewrite step_closing. case_decide; [|done]. simpl.
    intros [i Hi]%list_elem_of_lookup.
    apply list_lookup_insert_Some in Hi as [(_ & ? & _)|[_ Hi]]; [done|].
    apply Hw, list_elem_of_lookup. eauto.
  - rewrite step_close. case_decide; [|done]. simpl.
    intros [i Hi]%list_elem_of_lookup.
    apply list_lookup_insert_Some in Hi as [(_ & ? & _)|[_ Hi]]; [done|].
    apply Hw, list_elem_of_lookup. eauto.
Qed.

(** C1: if JSON parsing of a payload fails, the message listener leaves
    the stored snapshot (indeed the whole state) as it was, sends no frame
    to any client, returns without an exception, and the sending
    connection is still a member of the active set and still open; the
    failure goes to the error console.  The same holds of the whole turn
    of the event loop that delivers the message. *)
Theorem malformed_payload_discarded ws message w :
  JSON.parse message = None →
  let o := on_message ws message w in
  latestMetrics (vars (final o)) = latestMetrics (vars w)
  ∧ final o = w
  ∧ frames (effects o) = []
  ∧ effects o = [ConsoleError [CText "Error processing message:"; CExn SyntaxError]]
  ∧ completion o = inr tt
  ∧ (ws ∈ clients (vars w) → ws ∈ clients (vars (final o)))
  ∧ (is_open w ws → is_open (final o) ws)
  ∧ final (step (Ws (Message ws message)) w) = w
  ∧ frames (effects (step (Ws (Message ws message)) w)) = []
  ∧ completion (step (Ws (Message ws message)) w) = inr tt.
Proof.
  intros Hp o. subst o. rewrite step_message, on_message_rejected by done. simpl.
  repeat split; try done; by case_decide.
Qed.

Lemma malformed_payload_discarded_witness :
  JSON.parse Sample.hello = None
  ∧ final (on_message 0 Sample.hello Sample.three_clients) = Sample.three_clients
  ∧ frames (effects (on_message 0 Sample.hello Sample.three_clients)) = [].
Proof.
  assert (JSON.parse Sample.hello = None) as Hp by (vm_compute; reflexivity).
  split; [exact Hp|].
  pose proof (malformed_payload_discarded 0 Sample.hello Sample.three_clients Hp) as H.
  cbv zeta in H. destruct H as (_ & H2 & H3 & _). split; [exact H2|exact H3].
Defined.

Lemma reachable_member_state evs ws :
  let w := final (run evs initial) in
  ws ∈ clients (vars w) ↔ sockets w !! ws = Some OPEN ∨ sockets w !! ws = Some CLOSING.
Proof.
  simpl. rewrite reachable_member. split.
  - intros (state & Hs & Hn).
    assert (CONNECTING ∉ sockets (final (run evs initial))) as Hc
      by (apply run_not_connecting; by intros ?%elem_of_nil).
    destruct state; try tauto.
    exfalso. apply Hc, list_elem_of_lookup. eauto.
  - intros [Hs|Hs]; eexists; (split; [exact Hs|done]).
Qed.

(** C2: in every state the server can reach, when connected client [A]
    sends the text [{"cpu":42}], every other member of the active set
    whose socket is open is sent exactly one frame in that turn, and the
    frame is [{"cpu":42}]. *)
Theorem cpu42_broadcast_to_others evs A c :
  let w := final (run evs initial) in
  A ∈ clients (vars w) → c ∈ clients (vars w) → c ≠ A → is_open w c →
  sent_to c (effects (step (Ws (Message A Sample.cpu42)) w)) = [Sample.cpu42].
Proof.
  intros w HA Hc _ Ho. subst w.
  rewrite step_message, decide_True by (by apply reachable_member_state).
  pose proof stringify_cpu42 as Hs.
  destruct (JSON.parse Sample.cpu42) as [v|] eqn:Hp; [|done].
  injection Hs as Hs.
  rewrite (accepted_sent_to _ _ v) by (done || apply reachable_NoDup).
  rewrite decide_True by done. by rewrite Hs.
Qed.

Lemma cpu42_broadcast_to_others_witness :
  (0 ∈ clients (vars (final (run Sample.three_connections initial)))
   ∧ 1 ∈ clients (vars (final (run Sample.three_connections initial)))
   ∧ 1 ≠ 0
   ∧ is_open (final (run Sample.three_connections initial)) 1)
  ∧ sent_to 1 (effects (step (Ws (Message 0 Sample.cpu42))
                          (final (run Sample.three_connections initial))))
    = [Sample.cpu42].
Proof.
  assert (0 ∈ clients (vars (final (run Sample.three_connections initial)))) as H0
    by (apply (list_elem_of_lookup_2 _ 0); reflexivity).
  assert (1 ∈ clients (vars (final (run Sample.three_connections initial)))) as H1
    by (apply (list_elem_of_lookup_2 _ 1); reflexivity).
  assert (1 ≠ 0) as Hne by lia.
  assert (is_open (final (run Sample.three_connections initial)) 1) as Ho
    by reflexivity.
  split; [repeat split; assumption|].
  exact (cpu42_broadcast_to_others Sample.three_connections 0 1 H0 H1 Hne Ho).
Defined.

(** C3: a client that connects is sent the snapshot that is current at
    that moment (the text [{}] if no metrics were received yet) in the
    turn of its [connection] event; no frame was sent to it before, so
    whatever the server does later this snapshot is the first frame it
    is sent. *)
Theorem snapshot_is_first_message evs later :
  let w := final (run evs initial) in
  let ws := length (sockets w) in
  sent_to ws (effects (run evs initial)) = []
  ∧ ws ∈ clients (vars (final (step (Ws Connection) w)))
  ∧ sent_to ws (effects (step (Ws Connection) w))
    = [JSON.stringify (latestMetrics (vars w))]
  ∧ head (sent_to ws (effects (run (evs ++ Ws Connection :: later) initial)))
    = Some (JSON.stringify (latestMetrics (vars w)))
  ∧ sent_to 0 (effects (run [Ws Connection] initial)) = ["{}"].
Proof.
  intros w ws.
  assert (sent_to ws (effects (run evs initial)) = []) as Hbefore.
  { apply not_elem_of_frames_sent_to. intros c d Hin%run_frames_allocated.
    subst ws w. lia. }
  assert (sent_to ws (effects (step (Ws Connection) w))
          = [JSON.stringify (latestMetrics (vars w))]) as Hnow.
  { rewrite step_connection. simpl. by rewrite decide_True. }
  repeat split; try done.
  - rewrite step_connection. simpl. unfold JsSet.add.
    case_decide; [done|]. apply elem_of_app. right. by left.
  - destruct (run_app evs (Ws Connection :: later) initial) as [_ ->].
    rewrite run_cons_effects, !sent_to_app. fold w ws.
    by rewrite Hbefore, Hnow.
Qed.

Lemma filter_all {X} (P : X → Prop) `{!∀ x, Decision (P x)} (l : list X) :
  (∀ x, x ∈ l → P x) → filter P l = l.
Proof.
  induction l as [|x l IH]; intros Hall; [done|].
  rewrite filter_cons_True by (apply Hall; by left).
  f_equal. apply IH. intros y Hy. apply Hall. by right.
Qed.

(** After a client has connected and its closing handshake has started,
    and before its [close] event, the client is a member of the active set
    and its socket is not open. *)
Lemma member_not_open_counterexample :
  0 ∈ clients (vars (final (run Sample.connect_then_closing initial)))
  ∧ sockets (final (run Sample.connect_then_closing initial)) !! 0 = Some CLOSING
  ∧ ¬ is_open (final (run Sample.connect_then_closing initial)) 0.
Proof.
  split; [|split].
  - apply (list_elem_of_lookup_2 _ 0). reflexivity.
  - reflexivity.
  - unfold is_open. simpl. discriminate.
Qed.

(** C4, as the program has it: in every state the server can reach, the
    active set holds, once each, exactly the sockets that have connected
    and whose [close] event has not been handled yet.  Such a socket is
    open or already closing, which is why the broadcast loop asks for the
    [readyState] of each member.  The turn that handles the [close] event
    of a socket ends with the socket out of the set: the removal is part
    of the close listener itself. *)
Theorem active_set_is_live_sockets evs :
  let w := final (run evs initial) in
  (∀ ws, ws ∈ clients (vars w)
         ↔ sockets w !! ws = Some OPEN ∨ sockets w !! ws = Some CLOSING)
  ∧ NoDup (clients (vars w))
  ∧ (∀ ws, ws ∉ clients (vars (final (step (Ws (Close ws)) w))))
  ∧ (∀ ws w', ws ∉ clients (vars (final (on_close ws w')))).
Proof.
  intros w. subst w. split; [|split; [|split]].
  - intros ws. apply reachable_member_state.
  - apply reachable_NoDup.
  - intros ws. rewrite step_close. case_decide as Hd; simpl.
    + unfold JsSet.delete. rewrite list_elem_of_filter. tauto.
    + by rewrite (reachable_member_state evs ws).
  - intros ws w'. unfold on_close, bind, JsSet.delete. simpl.
    rewrite list_elem_of_filter. tauto.
Qed.

(** C5: from the start of the server, let [N] clients connect in the
    course of a run in which no connection closes, and let [K] be one of
    them.  Before the [close] event of [K] the active set has [N]
    members; once it is handled the set has [N - 1] members, [K] is not
    one of them, and whatever happens afterwards no frame is sent to
    [K]. *)
Theorem close_removes_one_member evs later K :
  no_close evs → K < connections evs →
  let w := final (run (evs ++ [Ws (Close K)]) initial) in
  length (clients (vars (final (run evs initial)))) = connections evs
  ∧ length (clients (vars w)) = connections evs - 1
  ∧ (K ∉ clients (vars w))
  ∧ sent_to K (effects (run later w)) = [].
Proof.
  intros Hnc HK w.
  set (w0 := final (run evs initial)).
  assert (length (sockets w0) = connections evs) as Hlen
    by (unfold w0; by rewrite run_sockets_length).
  assert (clients (vars w0) = seq 0 (connections evs)) as Hcl.
  { unfold w0. rewrite (consistent_run evs initial consistent_initial).
    fold w0. unfold live. rewrite Hlen. apply filter_all.
    intros i _ Hi. eapply (run_no_close evs initial Hnc).
    - by intros ?%elem_of_nil.
    - apply list_elem_of_lookup. eauto. }
  assert (w = final (step (Ws (Close K)) w0)) as Hw.
  { unfold w. destruct (run_app evs [Ws (Close K)] initial) as [-> _].
    by rewrite run_cons. }
  assert (K ∈ clients (vars w0)) as Hin
    by (rewrite Hcl; apply elem_of_seq; lia).
  assert (sockets w0 !! K = Some OPEN ∨ sockets w0 !! K = Some CLOSING) as Hst
    by (by apply reachable_member_state).
  rewrite step_close, decide_True in Hw by done.
  split; [by rewrite Hcl, length_seq|]. rewrite Hw. simpl. split; [|split].
  - rewrite length_delete, Hcl, ?length_seq; [done| |done].
    apply reachable_NoDup.
  - unfold JsSet.delete. rewrite list_elem_of_filter. tauto.
  - apply run_closed. simpl. apply list_lookup_insert_eq. lia.
Qed.

Lemma close_removes_one_member_witness :
  (no_close Sample.three_connections ∧ 1 < connections Sample.three_connections)
  ∧ length (clients (vars
      (final (run (Sample.three_connections ++ [Ws (Close 1)]) initial)))) = 2
  ∧ sent_to 1 (effects (run [Ws (Message 0 Sample.cpu42)]
      (final (run (Sample.three_connections ++ [Ws (Close 1)]) initial)))) = [].
Proof.
  assert (no_close Sample.three_connections) as Hn by reflexivity.
  assert (1 < connections Sample.three_connections) as Hk by (vm_compute; lia).
  split; [split; [exact Hn|exact Hk]|].
  pose proof (close_removes_one_member Sample.three_connections
                [Ws (Message 0 Sample.cpu42)] 1 Hn Hk) as H.
  cbv zeta in H. destruct H as (_ & H2 & _ & H4). split; [exact H2|exact H4].
Defined.

(** C7: when a payload parses, the message listener replaces the snapshot
    by the parsed value and then, in the state that already holds it,
    sends the serialisation of that same value once to every member of
    the active set whose socket is open, in the order of the set.  A
    member whose socket is not open is sent nothing; it stays in the set,
    and the state has no place where a frame could wait for it.  The
    listener returns without an exception. *)
Theorem accepted_payload_stored_and_pushed ws message v w :
  JSON.parse message = Some v →
  let o := on_message ws message w in
  let stored := World (Globals v (clients (vars w))) (sockets w) in
  latestMetrics (vars (final o)) = v
  ∧ final o = stored
  ∧ effects o
    = ConsoleLog [CText "Received metrics:"; CValue v]
      :: effects (forEach (clients (vars stored)) (push v) stored)
  ∧ frames (effects o)
    = (fun c => (c, JSON.stringify v)) <$> filter (is_open w) (clients (vars w))
  ∧ (∀ c, ¬ is_open w c → sent_to c (effects o) = [])
  ∧ (∀ c, c ∈ clients (vars w) → c ∈ clients (vars (final o)))
  ∧ completion o = inr tt.
Proof.
  intros Hp o stored. subst o stored.
  rewrite (on_message_accepted _ _ v), forEach_push by done. simpl.
  repeat split; try done.
  - apply frames_map_Send.
  - intros c Hc. apply not_elem_of_frames_sent_to. intros c' d.
    rewrite frames_map_Send. intros (c'' & [= -> _] & Hin)%list_elem_of_fmap <-.
    apply list_elem_of_filter in Hin. tauto.
Qed.

Lemma accepted_payload_stored_and_pushed_witness :
  JSON.parse Sample.cpu42 = Some Sample.cpu42_value
  ∧ frames (effects (on_message 0 Sample.cpu42 Sample.closing_client))
    = [(0, Sample.cpu42); (2, Sample.cpu42)]
  ∧ clients (vars (final (on_message 0 Sample.cpu42 Sample.closing_client)))
    = [0; 1; 2].
Proof.
  assert (JSON.parse Sample.cpu42 = Some Sample.cpu42_value) as Hp
    by (vm_compute; reflexivity).
  split; [exact Hp|].
  pose proof (accepted_payload_stored_and_pushed 0 Sample.cpu42 Sample.cpu42_value
                Sample.closing_client Hp) as H.
  cbv zeta in H. destruct H as (_ & H2 & _ & H4 & _).
  split.
  - rewrite H4. vm_compute. reflexivity.
  - rewrite H2. reflexivity.
Defined.

(** C8: the text [hello] is not a JSON text.  When a client sends it, no
    frame is sent to any client and the stored snapshot stays as it
    was. *)
Theorem hello_is_discarded ws w :
  JSON.parse Sample.hello = None
  ∧ frames (effects (on_message ws Sample.hello w)) = []
  ∧ latestMetrics (vars (final (on_message ws Sample.hello w)))
    = latestMetrics (vars w)
  ∧ frames (effects (step (Ws (Message ws Sample.hello)) w)) = []
  ∧ final (step (Ws (Message ws Sample.hello)) w) = w.
Proof.
  pose proof parse_hello as Hp. split; [done|].
  rewrite step_message, on_message_rejected by done.
  repeat split; try done; by case_decide.
Qed.

(** Written with its quotation marks, ["hello"] is a JSON text, a string
    literal; it is stored and broadcast like any other value. *)
Lemma quoted_hello_is_accepted ws w :
  latestMetrics (vars (final (on_message ws Sample.hello_quoted w)))
  = JSON.JString "hello"
  ∧ frames (effects (on_message ws Sample.hello_quoted w))
    = (fun c => (c, Sample.hello_quoted)) <$> filter (is_open w) (clients (vars w)).
Proof.
  rewrite (on_message_accepted _ _ _ _ parse_hello_quoted). simpl.
  split; [done|]. apply frames_map_Send.
Qed.

(** C9: the handler of GET [/metrics] answers every request with the
    serialisation of the snapshot that is current and changes nothing;
    right after the message [{"cpu":42}] of a client was handled, it
    answers [{"cpu":42}]. *)
Theorem metrics_endpoint_returns_snapshot w A :
  get_metrics w
  = Outcome w [ResJson (JSON.stringify (latestMetrics (vars w)))] (inr tt)
  ∧ step GetMetrics w = get_metrics w
  ∧ effects (step GetMetrics (final (on_message A Sample.cpu42 w)))
    = [ResJson Sample.cpu42].
Proof.
  split; [done|]. split; [done|].
  pose proof stringify_cpu42 as Hs.
  destruct (JSON.parse Sample.cpu42) as [v|] eqn:Hp; [|done].
  injection Hs as Hs.
  rewrite (on_message_accepted _ _ v) by done. rewrite step_get_metrics. simpl.
  by rewrite Hs.
Qed.

(** C10: when a message [M] parses to [v], every frame of the broadcast
    carries [JSON.stringify v], the same text for every receiver; the
    receivers are exactly the members of the active set whose socket is
    open, the sender among them if it is one.  The text sent is a fresh
    serialisation, not [M]: for [{ "cpu" : 42.0 }] it is [{"cpu":42}]. *)
Theorem broadcast_is_reserialization ws M v w :
  JSON.parse M = Some v →
  let o := on_message ws M w in
  (∀ c d, (c, d) ∈ frames (effects o) → d = JSON.stringify v)
  ∧ (∀ c, (c, JSON.stringify v) ∈ frames (effects o)
          ↔ c ∈ clients (vars w) ∧ is_open w c)
  ∧ (ws ∈ clients (vars w) → is_open w ws →
     (ws, JSON.stringify v) ∈ frames (effects o))
  ∧ JSON.stringify <$> JSON.parse Sample.cpu42_spaced = Some Sample.cpu42
  ∧ Sample.cpu42 ≠ Sample.cpu42_spaced.
Proof.
  intros Hp o. subst o.
  rewrite (on_message_accepted _ _ v) by done. simpl. rewrite frames_map_Send.
  assert (∀ c, (c, JSON.stringify v)
               ∈ ((fun c => (c, JSON.stringify v))
                    <$> filter (is_open w) (clients (vars w)))
               ↔ c ∈ clients (vars w) ∧ is_open w c) as Hrec.
  { intros c. rewrite list_elem_of_fmap. split.
    - intros (c' & [= ->] & Hin). apply list_elem_of_filter in Hin. tauto.
    - intros [Hin Ho]. exists c. split; [done|]. by apply list_elem_of_filter. }
  split; [|split; [|split; [|split]]].
  - by intros c d (c' & [= _ ->] & _)%list_elem_of_fmap.
  - exact Hrec.
  - intros Hin Ho. by apply Hrec.
  - exact stringify_cpu42_spaced.
  - discriminate.
Qed.

Lemma broadcast_is_reserialization_witness :
  JSON.parse Sample.cpu42_spaced = Some Sample.cpu42_value
  ∧ JSON.stringify Sample.cpu42_value = Sample.cpu42
  ∧ ((0, JSON.stringify Sample.cpu42_value)
     ∈ frames (effects (on_message 0 Sample.cpu42_spaced Sample.three_clients))
     ↔ 0 ∈ clients (vars Sample.three_clients) ∧ is_open Sample.three_clients 0).
Proof.
  assert (JSON.parse Sample.cpu42_spaced = Some Sample.cpu42_value) as Hp
    by (vm_compute; reflexivity).
  split; [exact Hp|]. split; [vm_compute; reflexivity|].
  pose proof (broadcast_is_reserialization 0 Sample.cpu42_spaced Sample.cpu42_value
                Sample.three_clients Hp) as H.
  cbv zeta in H. destruct H as (_ & H2 & _). exact (H2 0).
Defined.

End MetricsSpec.

(** ** The specification of the echo servers *)

Section EchoSpec.
Implicit Types (w : world unit) (ws : socket) (M : string).

Lemma echo_on_message ws M w :
  is_open w ws →
  EchoServer.on_message ws M w
  = Outcome w [ConsoleLog [CText "Received from client:"; CText M];
               Send ws (EchoServer.reply M)] (inr tt).
Proof.
  intros Ho. unfold EchoServer.on_message, bind. simpl.
  by rewrite send_open.
Qed.

Lemma echo_quoted_on_message ws M w :
  is_open w ws →
  EchoServerQuoted.on_message ws M w
  = Outcome w [ConsoleLog [CText "Recieved from client:"; CText M];
               Send ws (EchoServerQuoted.reply M)] (inr tt).
Proof.
  intros Ho. unfold EchoServerQuoted.on_message, bind. simpl.
  by rewrite send_open.
Qed.

Lemma emit_message_open (l : listeners unit) ws M w :
  is_open w ws → emit l (Message ws M) w = on_message l ws M w.
Proof. unfold is_open, emit. by intros ->. Qed.

(** The reply of the first server carries the message; that of the second
    is the same text for every message. *)
Lemma echo_reply_inj M M' : EchoServer.reply M = EchoServer.reply M' → M = M'.
Proof. unfold EchoServer.reply. apply String.app_inj. Qed.

Lemma echo_quoted_reply_constant M M' :
  EchoServerQuoted.reply M = EchoServerQuoted.reply M'.
Proof. reflexivity. Qed.

(** C6: in both echo servers the turn that handles a text message [M] of
    an open client sends one frame, to the sender, and the text of the
    frame is [reply M] for a function [reply] of the message alone:
    whatever the state of the server and whichever client sends it, the
    same [M] gets the same reply.  The listener changes nothing and
    returns without an exception. *)
Theorem echo_reply_is_function_of_message ws ws' M w w' :
  is_open w ws → is_open w' ws' →
  frames (effects (emit EchoServer.wss (Message ws M) w))
  = [(ws, EchoServer.reply M)]
  ∧ frames (effects (emit EchoServerQuoted.wss (Message ws M) w))
    = [(ws, EchoServerQuoted.reply M)]
  ∧ sent_to ws (effects (emit EchoServer.wss (Message ws M) w))
    = sent_to ws' (effects (emit EchoServer.wss (Message ws' M) w'))
  ∧ sent_to ws (effects (emit EchoServerQuoted.wss (Message ws M) w))
    = sent_to ws' (effects (emit EchoServerQuoted.wss (Message ws' M) w'))
  ∧ emit EchoServer.wss (Message ws M) w = EchoServer.on_message ws M w
  ∧ emit EchoServerQuoted.wss (Message ws M) w = EchoServerQuoted.on_message ws M w
  ∧ final (EchoServer.on_message ws M w) = w
  ∧ final (EchoServerQuoted.on_message ws M w) = w
  ∧ completion (EchoServer.on_message ws M w) = inr tt
  ∧ completion (EchoServerQuoted.on_message ws M w) = inr tt.
Proof.
  intros Ho Ho'. rewrite !emit_message_open by done. simpl.
  rewrite !echo_on_message, !echo_quoted_on_message, !send_open by done. simpl.
  repeat case_decide; done.
Qed.

Lemma echo_reply_is_function_of_message_witness :
  is_open Sample.one_client 0
  ∧ frames (effects (emit EchoServer.wss (Message 0 Sample.ping) Sample.one_client))
    = [(0, "Server received: Ping from ESP32")]
  ∧ frames (effects (emit EchoServerQuoted.wss (Message 0 Sample.ping) Sample.one_client))
    = [(0, "Server recieved: ${message}")].
Proof.
  assert (is_open Sample.one_client 0) as Ho by reflexivity.
  split; [exact Ho|].
  destruct (echo_reply_is_function_of_message 0 0 Sample.ping
              Sample.one_client Sample.one_client Ho Ho) as (H1 & H2 & _).
  split; [exact H1|exact H2].
Defined.

End EchoSpec.


(** ** More on the runs of the metrics server *)

Section MetricsRuns.
Import MetricsServer Traffic.
Implicit Types (w : world globals) (ws client A K c : socket) (v : JSON.value).
Implicit Types (e : event) (evs : list event).

Lemma run_cons_final e evs w :
  final (run (e :: evs) w) = final (run evs (final (step e w))).
Proof. by rewrite run_cons. Qed.

Lemma run_snoc evs e w :
  final (run (evs ++ [e]) w) = final (step e (final (run evs w)))
  ∧ effects (run (evs ++ [e]) w)
    = effects (run evs w) ++ effects (step e (final (run evs w))).
Proof.
  destruct (run_app evs [e] w) as [-> ->].
  rewrite run_cons_final, run_cons_effects. simpl. by rewrite app_nil_r.
Qed.

Lemma responses_app (es es' : list effect) :
  responses (es ++ es') = responses es ++ responses es'.
Proof.
  induction es as [|[c d| | |] es IH]; simpl; auto. congruence.
Qed.

Lemma responses_map_Send data (l : list socket) :
  responses ((fun c => Send c data) <$> l) = [].
Proof. induction l; [done|]. rewrite fmap_cons. done. Qed.


(** X2: traffic that holds no JSON text changes nothing that a client can
    see.  In a run none of whose messages parses, the snapshot at the end
    is the snapshot at the start, every frame sent is the serialisation of
    that snapshot (the one a client is sent when it connects), and so is
    every answer to a GET request. *)
Theorem malformed_traffic_keeps_snapshot evs w :
  malformed evs →
  latestMetrics (vars (final (run evs w))) = latestMetrics (vars w)
  ∧ (∀ c d, (c, d) ∈ frames (effects (run evs w)) →
       d = JSON.stringify (latestMetrics (vars w)))
  ∧ (∀ body, body ∈ responses (effects (run evs w)) →
       body = JSON.stringify (latestMetrics (vars w))).
Proof.
  revert w. induction evs as [|e evs IH]; intros w Hm.
  { repeat split; try done; simpl; intros; by apply elem_of_nil in H. }
  assert (malformed evs) as Hm' by (intros ws m Hin; apply (Hm ws m); by right).
  assert (latestMetrics (vars (final (step e w))) = latestMetrics (vars w)
          ∧ (∀ c d, (c, d) ∈ frames (effects (step e w)) →
               d = JSON.stringify (latestMetrics (vars w)))
          ∧ (∀ body, body ∈ responses (effects (step e w)) →
               body = JSON.stringify (latestMetrics (vars w)))) as (He1 & He2 & He3).
  { destruct e as [[|ws m|ws|ws]|].
    - rewrite step_connection. simpl. repeat split; try done.
      + by intros c d [= _ ->]%list_elem_of_singleton.
      + by intros body ?%elem_of_nil.
    - rewrite step_message.
      rewrite on_message_rejected by (apply (Hm ws m); by left).
      case_decide; simpl; repeat split; try done; intros; by apply elem_of_nil in H0.
    - rewrite step_closing. simpl.
      repeat split; try (intros; by apply elem_of_nil in H).
      by case_decide.
    - rewrite step_close.
      case_decide; simpl; repeat split; try done; intros; by apply elem_of_nil in H0.
    - rewrite step_get_metrics. simpl. repeat split; try done.
      + by intros c d ?%elem_of_nil.
      + by intros body ->%list_elem_of_singleton. }
  destruct (IH (final (step e w)) Hm') as (IH1 & IH2 & IH3).
  rewrite run_cons_final, run_cons_effects, frames_app, responses_app.
  rewrite He1 in IH1, IH2, IH3.
  split; [done|]. split.
  - intros c d [Hin|Hin]%elem_of_app; eauto.
  - intros body [Hin|Hin]%elem_of_app; eauto.
Qed.

Lemma malformed_traffic_keeps_snapshot_witness :
  malformed [Ws Connection; Ws (Message 0 Sample.hello); GetMetrics]
  ∧ latestMetrics (vars (final
      (run [Ws Connection; Ws (Message 0 Sample.hello); GetMetrics] initial)))
    = JSON.JObject [].
Proof.
  assert (malformed [Ws Connection; Ws (Message 0 Sample.hello); GetMetrics]) as Hm.
  { intros ws m Hin. apply list_elem_of_In in Hin.
    destruct Hin as [Hin|[Hin|[Hin|[]]]]; try discriminate.
    injection Hin as _ <-. vm_compute. reflexivity. }
  split; [exact Hm|].
  exact (proj1 (malformed_traffic_keeps_snapshot _ initial Hm)).
Defined.

Lemma is_open_member evs c :
  is_open (final (run evs initial)) c → c ∈ clients (vars (final (run evs initial))).
Proof. intros Ho. apply reachable_member_state. by left. Qed.

(** X3: an open client is never left with old data.  After any run from
    the start of the server, the last frame sent to a client whose socket
    is open is the serialisation of the snapshot the server holds, the
    same text a GET of [/metrics] is answered at that moment. *)
Theorem open_client_holds_current_snapshot evs c :
  is_open (final (run evs initial)) c →
  last (sent_to c (effects (run evs initial)))
  = Some (JSON.stringify (latestMetrics (vars (final (run evs initial)))))
  ∧ responses (effects (step GetMetrics (final (run evs initial))))
    = [JSON.stringify (latestMetrics (vars (final (run evs initial))))].
Proof.
  intros Ho. split; [|done]. revert c Ho.
  induction evs as [|e evs IH] using rev_ind; intros c Ho; [done|].
  destruct (run_snoc evs e initial) as [Hf He]. rewrite Hf in Ho. rewrite Hf, He.
  clear Hf He. rewrite sent_to_app.
  pose proof (is_open_member evs) as Hmem. pose proof (reachable_NoDup evs) as Hnd.
  set (w := final (run evs initial)) in *.
  destruct e as [[|ws m|ws|ws]|].
  - rewrite step_connection in *. simpl in *. unfold is_open in Ho. simpl in Ho.
    case_decide as Hc.
    + subst c. by rewrite last_snoc.
    + rewrite app_nil_r. apply IH. unfold is_open.
      apply lookup_app_Some in Ho as [Ho|[Hge Ho]]; [done|].
      destruct (c - length (sockets w))%nat as [|n] eqn:Hn; [lia|].
      by destruct n.
  - rewrite step_message in *. case_decide as Hd.
    + destruct (JSON.parse m) as [v|] eqn:Hp.
      * rewrite (accepted_sent_to _ _ v) by done.
        rewrite (on_message_accepted _ _ v) in * by done. simpl in *.
        rewrite decide_True by (split; [by apply Hmem|done]).
        by rewrite last_snoc.
      * rewrite on_message_rejected in * by done. simpl in *.
        rewrite app_nil_r. by apply IH.
    + simpl in *. rewrite app_nil_r. by apply IH.
  - rewrite step_closing in *. simpl in *. rewrite app_nil_r.
    case_decide as Hd; [|by apply IH]. unfold is_open in Ho. simpl in *.
    apply list_lookup_insert_Some in Ho as [(_ & ? & _)|[_ Ho]]; [done|].
    by apply IH.
  - rewrite step_close in *. case_decide as Hd; simpl in *; rewrite app_nil_r.
    + unfold is_open in Ho. simpl in Ho.
      apply list_lookup_insert_Some in Ho as [(_ & ? & _)|[_ Ho]]; [done|].
      by apply IH.
    + by apply IH.
  - rewrite step_get_metrics in *. simpl in *. rewrite app_nil_r. by apply IH.
Qed.

Lemma open_client_holds_current_snapshot_witness :
  is_open (final (run (Sample.three_connections ++ [Ws (Message 0 Sample.cpu42)])
                    initial)) 2
  ∧ last (sent_to 2 (effects
      (run (Sample.three_connections ++ [Ws (Message 0 Sample.cpu42)]) initial)))
    = Some (JSON.stringify (latestMetrics (vars (final
        (run (Sample.three_connections ++ [Ws (Message 0 Sample.cpu42)]) initial))))).
Proof.
  assert (is_open (final (run (Sample.three_connections
            ++ [Ws (Message 0 Sample.cpu42)]) initial)) 2) as Ho
    by (vm_compute; reflexivity).
  split; [exact Ho|].
  exact (proj1 (open_client_holds_current_snapshot _ 2 Ho)).
Defined.

Lemma receivers_fmap (d : string) (l : list socket) :
  ((fun c => (c, d)) <$> l).*1 = l.
Proof. induction l as [|c l IH]; [done|]. rewrite !fmap_cons, IH. done. Qed.

(** X4: a broadcast serves the clients in the order in which they
    connected.  When the message of a connected client parses, the
    receivers of the frames, in the order the frames are sent, are the
    sockets that are open, oldest connection first. *)
Theorem broadcast_in_connection_order evs A M v :
  A ∈ clients (vars (final (run evs initial))) →
  JSON.parse M = Some v →
  (frames (effects (step (Ws (Message A M)) (final (run evs initial))))).*1
  = filter (is_open (final (run evs initial)))
      (seq 0 (length (sockets (final (run evs initial))))).
Proof.
  intros HA Hp.
  rewrite step_message, decide_True by (by apply reachable_member_state).
  rewrite (on_message_accepted _ _ v) by done. simpl.
  rewrite frames_map_Send, receivers_fmap.
  rewrite (consistent_run evs initial consistent_initial).
  set (w := final (run evs initial)).
  unfold live. rewrite list_filter_filter.
  apply filter_ext_elem. intros i _. unfold is_open. split; [tauto|].
  intros Hi. split; [done|]. rewrite Hi. done.
Qed.

Lemma broadcast_in_connection_order_witness :
  (0 ∈ clients (vars (final (run (Sample.three_connections ++ [Ws (Closing 1)]) initial)))
   ∧ JSON.parse Sample.cpu42 = Some Sample.cpu42_value)
  ∧ (frames (effects (step (Ws (Message 0 Sample.cpu42))
       (final (run (Sample.three_connections ++ [Ws (Closing 1)]) initial))))).*1
    = [0; 2]%nat.
Proof.
  assert (0 ∈ clients (vars (final
            (run (Sample.three_connections ++ [Ws (Closing 1)]) initial)))) as H0
    by (apply (list_elem_of_lookup_2 _ 0); reflexivity).
  assert (JSON.parse Sample.cpu42 = Some Sample.cpu42_value) as Hp
    by (vm_compute; reflexivity).
  split; [split; [exact H0|exact Hp]|].
  rewrite (broadcast_in_connection_order _ 0 Sample.cpu42 Sample.cpu42_value H0 Hp).
  vm_compute. reflexivity.
Defined.

Lemma live_length (l : list ReadyState) g :
  length (live (World g l)) + length (filter (fun state => state = CLOSED) l)
  = length l.
Proof.
  unfold live. simpl. induction l as [|x l IH] using rev_ind; [done|].
  rewrite length_app, Nat.add_1_r, seq_S, !filter_app, !length_app. simpl.
  rewrite (filter_ext_elem _ (fun ws => l !! ws ≠ Some CLOSED) (seq 0 (length l))).
  - rewrite !filter_cons, !filter_nil. rewrite list_lookup_middle by done.
    destruct (decide (x = CLOSED)) as [->|Hx].
    + rewrite decide_False by (intros H; by apply H). simpl. lia.
    + rewrite decide_True by congruence. simpl. lia.
  - intros i [_ Hi]%elem_of_seq. by rewrite lookup_app_l by (simpl in Hi; lia).
Qed.

(** X5: the active set counts the clients that are still there.  After
    any run from the start of the server, the number of members of the
    active set and the number of sockets whose [close] event was handled
    add up to the number of clients that have connected. *)
Theorem active_set_size evs :
  length (clients (vars (final (run evs initial))))
  + closed_count (final (run evs initial))
  = connections evs.
Proof.
  rewrite (consistent_run evs initial consistent_initial).
  unfold closed_count.
  pose proof (run_sockets_length evs initial) as Hlen. simpl in Hlen.
  rewrite <- Hlen.
  destruct (final (run evs initial)) as [g l]. apply live_length.
Qed.

Lemma without_gets_cons e evs :
  without_gets (e :: evs)
  = if is_get e then without_gets evs else e :: without_gets evs.
Proof. unfold without_gets. simpl. by destruct (is_get e). Qed.

(** X6: the HTTP endpoint does not disturb the sockets.  A run and the
    same run without its GET requests end in the same state and send the
    same frames to the same clients in the same order. *)
Theorem gets_do_not_disturb evs w :
  final (run evs w) = final (run (without_gets evs) w)
  ∧ frames (effects (run evs w)) = frames (effects (run (without_gets evs) w)).
Proof.
  revert w. induction evs as [|e evs IH]; intros w; [done|].
  rewrite without_gets_cons. destruct e as [e|]; simpl is_get; cbv iota.
  - rewrite !run_cons_final, !run_cons_effects, !frames_app.
    destruct (IH (final (step (Ws e) w))) as [-> ->]. done.
  - rewrite run_cons_final, run_cons_effects, frames_app, step_get_metrics. simpl.
    apply IH.
Qed.

End MetricsRuns.


(** ** Runs of the echo servers *)

Section EchoRuns.
Implicit Types (w : world unit) (ws c : socket) (M d : string) (e : ws_event).

(** What the two servers have in common: a greeting for a new socket, a
    reply for the sender of a message, and nothing else. *)
Variable l : listeners unit.
Variable greeting : string.
Variable reply : string → string.
Hypothesis connection_greets : ∀ ws w,
  is_open w ws →
  final (on_connection l ws w) = w
  ∧ frames (effects (on_connection l ws w)) = [(ws, greeting)]
  ∧ completion (on_connection l ws w) = inr tt.
Hypothesis message_replies : ∀ ws M w,
  final (on_message l ws M w) = w
  ∧ frames (effects (on_message l ws M w))
    = if decide (is_open w ws) then [(ws, reply M)] else [].
Hypothesis close_is_silent : ∀ ws w,
  final (on_close l ws w) = w ∧ frames (effects (on_close l ws w)) = [].

Lemma emit_connection w :
  emit l Connection w
  = on_connection l (length (sockets w)) (World (vars w) (sockets w ++ [OPEN])).
Proof.
  unfold emit, bind, open_socket. simpl.
  by destruct (on_connection l _ _).
Qed.

Lemma emit_message ws M w :
  emit l (Message ws M) w
  = if decide (sockets w !! ws = Some OPEN ∨ sockets w !! ws = Some CLOSING)
    then on_message l ws M w else Outcome w [] (inr tt).
Proof.
  unfold emit, ret.
  case_decide as Hd; destruct (sockets w !! ws) as [[]|];
    first [done | exfalso; intuition congruence].
Qed.

Lemma emit_closing ws w :
  emit l (Closing ws) w
  = Outcome
      (if decide (is_open w ws)
       then World (vars w) (<[ws := CLOSING]> (sockets w)) else w)
      [] (inr tt).
Proof.
  unfold emit, ret, set_readyState, is_open.
  case_decide as Hd; destruct (sockets w !! ws) as [[]|];
    first [done | exfalso; intuition congruence].
Qed.

Lemma emit_close ws w :
  emit l (Close ws) w
  = if decide (sockets w !! ws = Some OPEN ∨ sockets w !! ws = Some CLOSING)
    then on_close l ws (World (vars w) (<[ws := CLOSED]> (sockets w)))
    else Outcome w [] (inr tt).
Proof.
  unfold emit, ret, bind, set_readyState.
  case_decide as Hd; destruct (sockets w !! ws) as [[]|]; simpl;
    first [done | by destruct (on_close l _ _) | exfalso; intuition congruence].
Qed.

Lemma emit_turn e w c d :
  (c, d) ∈ frames (effects (emit l e w)) →
  c = EventLoop.socket_of w e
  ∧ is_open (final (emit l e w)) c
  ∧ (e = Connection ∧ d = greeting ∨ ∃ M, e = Message c M ∧ d = reply M).
Proof.
  destruct e as [|ws M|ws|ws].
  - rewrite emit_connection.
    set (w' := World (vars w) (sockets w ++ [OPEN])).
    assert (is_open w' (length (sockets w))) as Ho by (by apply list_lookup_middle).
    destruct (connection_greets _ _ Ho) as (Hf & Hfr & Hc).
    rewrite Hf, Hfr. intros [= -> ->]%list_elem_of_singleton. eauto.
  - rewrite emit_message. case_decide as Hd; [|by intros ?%elem_of_nil].
    destruct (message_replies ws M w) as (Hf & Hfr). rewrite Hf, Hfr.
    case_decide as Ho; [|by intros ?%elem_of_nil].
    intros [= -> ->]%list_elem_of_singleton.
    split; [done|]. split; [done|]. right. by exists M.
  - rewrite emit_closing. by intros ?%elem_of_nil.
  - rewrite emit_close. case_decide; [|by intros ?%elem_of_nil].
    destruct (close_is_silent ws (World (vars w) (<[ws:=CLOSED]> (sockets w))))
      as (Hf & ->).
    by intros ?%elem_of_nil.
Qed.

Lemma emit_sockets_length e w :
  length (sockets w) ≤ length (sockets (final (emit l e w))).
Proof.
  destruct e as [|ws M|ws|ws].
  - rewrite emit_connection.
    set (w' := World (vars w) (sockets w ++ [OPEN])).
    assert (is_open w' (length (sockets w))) as Ho by (by apply list_lookup_middle).
    destruct (connection_greets _ _ Ho) as (-> & _).
    simpl. rewrite length_app. lia.
  - rewrite emit_message. case_decide; [|done].
    by destruct (message_replies ws M w) as (-> & _).
  - rewrite emit_closing. case_decide; simpl; rewrite ?length_insert; lia.
  - rewrite emit_close. case_decide; [|done].
    destruct (close_is_silent ws (World (vars w) (<[ws:=CLOSED]> (sockets w))))
      as (-> & _).
    simpl. by rewrite length_insert.
Qed.

Lemma echo_run_cons e evs w :
  completion (emit l e w) = inr tt →
  final (EventLoop.run l (e :: evs) w) = final (EventLoop.run l evs (final (emit l e w)))
  ∧ effects (EventLoop.run l (e :: evs) w)
    = effects (emit l e w) ++ effects (EventLoop.run l evs (final (emit l e w)))
  ∧ completion (EventLoop.run l (e :: evs) w)
    = completion (EventLoop.run l evs (final (emit l e w))).
Proof. intros Hc. simpl. unfold bind. by rewrite Hc. Qed.

Lemma echo_run_raised e evs w x :
  completion (emit l e w) = inl x →
  final (EventLoop.run l (e :: evs) w) = final (emit l e w)
  ∧ effects (EventLoop.run l (e :: evs) w) = effects (emit l e w).
Proof. intros Hc. simpl. unfold bind. by rewrite Hc. Qed.

Lemma echo_run_sockets_length evs w :
  length (sockets w) ≤ length (sockets (final (EventLoop.run l evs w))).
Proof.
  revert w. induction evs as [|e evs IH]; intros w; [done|].
  pose proof (emit_sockets_length e w) as Hle.
  destruct (completion (emit l e w)) as [x|[]] eqn:Hc.
  - by destruct (echo_run_raised e evs w x Hc) as [-> _].
  - destruct (echo_run_cons e evs w Hc) as (-> & _). etrans; [exact Hle|apply IH].
Qed.

Lemma echo_run_frames_allocated evs w c d :
  (c, d) ∈ frames (effects (EventLoop.run l evs w)) →
  c < length (sockets (final (EventLoop.run l evs w))).
Proof.
  revert w. induction evs as [|e evs IH]; intros w; [by intros ?%elem_of_nil|].
  destruct (completion (emit l e w)) as [x|[]] eqn:Hc.
  - destruct (echo_run_raised e evs w x Hc) as [-> ->].
    intros (_ & Ho & _)%emit_turn. by eapply lookup_lt_Some.
  - destruct (echo_run_cons e evs w Hc) as (-> & -> & _).
    rewrite frames_app. intros [Hin|Hin]%elem_of_app; [|by apply IH].
    apply emit_turn in Hin as (_ & Ho & _). apply lookup_lt_Some in Ho.
    pose proof (echo_run_sockets_length evs (final (emit l e w))). lia.
Qed.

Lemma echo_run_app evs evs' w :
  completion (EventLoop.run l evs w) = inr tt →
  effects (EventLoop.run l (evs ++ evs') w)
  = effects (EventLoop.run l evs w)
    ++ effects (EventLoop.run l evs' (final (EventLoop.run l evs w))).
Proof.
  revert w. induction evs as [|e evs IH]; intros w Hn; [done|].
  rewrite <- app_comm_cons.
  destruct (completion (emit l e w)) as [x|[]] eqn:Hc.
  - simpl in Hn. unfold bind in Hn. by rewrite Hc in Hn.
  - destruct (echo_run_cons e evs w Hc) as (Hf & He & Hc').
    destruct (echo_run_cons e (evs ++ evs') w Hc) as (_ & -> & _).
    rewrite Hf, He, IH, app_assoc; [done|]. by rewrite <- Hc'.
Qed.

Lemma greeting_first evs later w :
  completion (EventLoop.run l evs w) = inr tt →
  head (sent_to (length (sockets (final (EventLoop.run l evs w))))
          (effects (EventLoop.run l (evs ++ Connection :: later) w)))
  = Some greeting.
Proof.
  intros Hn. rewrite echo_run_app by done. rewrite sent_to_app.
  rewrite (not_elem_of_frames_sent_to _ (effects (EventLoop.run l evs w))).
  2:{ intros c d Hin%echo_run_frames_allocated. lia. }
  set (w1 := final (EventLoop.run l evs w)).
  assert (is_open (World (vars w1) (sockets w1 ++ [OPEN])) (length (sockets w1)))
    as Ho by (by apply list_lookup_middle).
  destruct (connection_greets _ _ Ho) as (Hf & Hfr & Hc).
  assert (effects (EventLoop.run l (Connection :: later) w1)
          = effects (on_connection l (length (sockets w1))
                       (World (vars w1) (sockets w1 ++ [OPEN])))
            ++ effects (EventLoop.run l later
                 (final (on_connection l (length (sockets w1))
                    (World (vars w1) (sockets w1 ++ [OPEN])))))) as ->.
  { assert (completion (emit l Connection w1) = inr tt) as Hc'
      by (by rewrite emit_connection).
    destruct (echo_run_cons Connection later w1 Hc') as (_ & -> & _).
    by rewrite emit_connection. }
  rewrite sent_to_app, sent_to_frames, Hfr. simpl.
  rewrite filter_cons_True by done. done.
Qed.

End EchoRuns.

Section EchoServers.
Implicit Types (w : world unit) (ws c : socket) (M d : string) (e : ws_event).

Lemma send_not_open {G} ws data (w : world G) :
  ¬ is_open w ws → send ws data w = Outcome w [] (inl (NotOpen ws)).
Proof.
  unfold is_open, send. intros Hn.
  destruct (sockets w !! ws) as [[]|]; first [done | by destruct Hn].
Qed.

Lemma echo_connection_greets ws w :
  is_open w ws →
  final (EchoServer.on_connection ws w) = w
  ∧ frames (effects (EchoServer.on_connection ws w))
    = [(ws, "Hello from Raspberry Pi server!")]
  ∧ completion (EchoServer.on_connection ws w) = inr tt.
Proof.
  intros Ho. unfold EchoServer.on_connection, bind. simpl. by rewrite send_open.
Qed.

Lemma echo_message_replies ws M w :
  final (EchoServer.on_message ws M w) = w
  ∧ frames (effects (EchoServer.on_message ws M w))
    = if decide (is_open w ws) then [(ws, EchoServer.reply M)] else [].
Proof.
  case_decide as Ho.
  - by rewrite echo_on_message.
  - unfold EchoServer.on_message, bind. simpl. by rewrite send_not_open.
Qed.

Lemma echo_close_is_silent ws w :
  final (EchoServer.on_close ws w) = w
  ∧ frames (effects (EchoServer.on_close ws w)) = [].
Proof. done. Qed.

Lemma echo_quoted_connection_greets ws w :
  is_open w ws →
  final (EchoServerQuoted.on_connection ws w) = w
  ∧ frames (effects (EchoServerQuoted.on_connection ws w))
    = [(ws, "Hello from Raspberry Pi server!")]
  ∧ completion (EchoServerQuoted.on_connection ws w) = inr tt.
Proof.
  intros Ho. unfold EchoServerQuoted.on_connection, bind. simpl. by rewrite send_open.
Qed.

Lemma echo_quoted_message_replies ws M w :
  final (EchoServerQuoted.on_message ws M w) = w
  ∧ frames (effects (EchoServerQuoted.on_message ws M w))
    = if decide (is_open w ws) then [(ws, EchoServerQuoted.reply M)] else [].
Proof.
  case_decide as Ho.
  - by rewrite echo_quoted_on_message.
  - unfold EchoServerQuoted.on_message, bind. simpl. by rewrite send_not_open.
Qed.

Lemma echo_quoted_close_is_silent ws w :
  final (EchoServerQuoted.on_close ws w) = w
  ∧ frames (effects (EchoServerQuoted.on_close ws w)) = [].
Proof. done. Qed.

(** X7: the echo servers never broadcast.  In both of them every frame of
    a turn goes to the socket of the event being handled, and that socket
    is open: the greeting to a socket that connects, the reply to the
    sender of a message.  A message never makes the server send to another
    client, a message of a socket that is no longer open gets no reply,
    and closing and [close] events send nothing. *)
Theorem echo_frames_go_to_the_socket_of_the_event e w c d :
  ((c, d) ∈ frames (effects (emit EchoServer.wss e w)) →
   c = EventLoop.socket_of w e
   ∧ is_open (final (emit EchoServer.wss e w)) c
   ∧ (e = Connection ∧ d = "Hello from Raspberry Pi server!"
      ∨ ∃ M, e = Message c M ∧ d = EchoServer.reply M))
  ∧ ((c, d) ∈ frames (effects (emit EchoServerQuoted.wss e w)) →
     c = EventLoop.socket_of w e
     ∧ is_open (final (emit EchoServerQuoted.wss e w)) c
     ∧ (e = Connection ∧ d = "Hello from Raspberry Pi server!"
        ∨ ∃ M, e = Message c M ∧ d = EchoServerQuoted.reply M)).
Proof.
  split.
  - apply (emit_turn EchoServer.wss _ _ echo_connection_greets
             echo_message_replies echo_close_is_silent).
  - apply (emit_turn EchoServerQuoted.wss _ _ echo_quoted_connection_greets
             echo_quoted_message_replies echo_quoted_close_is_silent).
Qed.

Lemma echo_frames_go_to_the_socket_of_the_event_witness :
  (0, "Server received: Ping from ESP32")
  ∈ frames (effects (emit EchoServer.wss (Message 0 Sample.ping) Sample.one_client))
  ∧ 0 = EventLoop.socket_of Sample.one_client (Message 0 Sample.ping).
Proof.
  assert ((0, "Server received: Ping from ESP32")
          ∈ frames (effects (emit EchoServer.wss (Message 0 Sample.ping)
                               Sample.one_client))) as Hin
    by (apply (list_elem_of_lookup_2 _ 0); reflexivity).
  split; [exact Hin|].
  exact (proj1 (proj1 (echo_frames_go_to_the_socket_of_the_event
                         (Message 0 Sample.ping) Sample.one_client 0 _) Hin)).
Defined.

(** X8: a client of an echo server is greeted first.  In a run that has
    gone without an exception so far, the client that connects next is
    sent [Hello from Raspberry Pi server!] before any other frame,
    whatever the run goes on with. *)
Theorem echo_greeting_is_first_frame evs later w :
  (completion (EventLoop.run EchoServer.wss evs w) = inr tt →
   head (sent_to (length (sockets (final (EventLoop.run EchoServer.wss evs w))))
           (effects (EventLoop.run EchoServer.wss (evs ++ Connection :: later) w)))
   = Some "Hello from Raspberry Pi server!")
  ∧ (completion (EventLoop.run EchoServerQuoted.wss evs w) = inr tt →
     head (sent_to (length (sockets (final (EventLoop.run EchoServerQuoted.wss evs w))))
             (effects (EventLoop.run EchoServerQuoted.wss (evs ++ Connection :: later) w)))
     = Some "Hello from Raspberry Pi server!").
Proof.
  split.
  - apply (greeting_first EchoServer.wss _ _ echo_connection_greets
             echo_message_replies echo_close_is_silent).
  - apply (greeting_first EchoServerQuoted.wss _ _ echo_quoted_connection_greets
             echo_quoted_message_replies echo_quoted_close_is_silent).
Qed.

Lemma echo_greeting_is_first_frame_witness :
  completion (EventLoop.run EchoServer.wss [Connection; Message 0 Sample.ping]
                (World tt [])) = inr tt
  ∧ head (sent_to 1 (effects (EventLoop.run EchoServer.wss
       ([Connection; Message 0 Sample.ping]
        ++ Connection :: [Message 1 Sample.ping; Message 0 Sample.ping])
       (World tt []))))
    = Some "Hello from Raspberry Pi server!".
Proof.
  assert (completion (EventLoop.run EchoServer.wss [Connection; Message 0 Sample.ping]
                        (World tt [])) = inr tt) as Hn by reflexivity.
  split; [exact Hn|].
  exact (proj1 (echo_greeting_is_first_frame [Connection; Message 0 Sample.ping]
                  [Message 1 Sample.ping; Message 0 Sample.ping] (World tt [])) Hn).
Defined.

End EchoServers.

(** ** The sketches *)

Section Sketches.
Import Arduino.
#[local] Open Scope Z_scope.
Implicit Types (s : sketch) (k prev : tick) (ticks : list tick) (L T : Z).

(** X9: the ping timer of both sketches keeps time across the overflow of
    [millis].  If the time of the last reset and the time of the reading
    are less than [2^32] milliseconds apart, the test
    [millis() - lastTime > 5000] on the 32-bit counter holds exactly when
    more than 5000 milliseconds have gone by, also when the counter has
    started again from zero in between. *)
Theorem ping_timer_survives_overflow L T :
  L <= T → T - L < 2 ^ 32 →
  ping_due (millis T) (millis L) = (5000 <? T - L).
Proof.
  intros Hle Hlt. unfold ping_due, millis, uint32.
  rewrite <- Zminus_mod, Z.mod_small by lia. reflexivity.
Qed.

Lemma ping_timer_survives_overflow_witness :
  (ArduinoSample.before_wrap <= ArduinoSample.after_wrap
   ∧ ArduinoSample.after_wrap - ArduinoSample.before_wrap < 2 ^ 32)
  ∧ millis ArduinoSample.after_wrap < millis ArduinoSample.before_wrap
  ∧ ping_due (millis ArduinoSample.after_wrap) (millis ArduinoSample.before_wrap)
    = true.
Proof.
  assert (ArduinoSample.before_wrap <= ArduinoSample.after_wrap) as H1
    by (vm_compute; discriminate).
  assert (ArduinoSample.after_wrap - ArduinoSample.before_wrap < 2 ^ 32) as H2
    by (vm_compute; reflexivity).
  split; [split; [exact H1|exact H2]|]. split; [vm_compute; reflexivity|].
  rewrite (ping_timer_survives_overflow _ _ H1 H2). vm_compute. reflexivity.
Defined.

Lemma spaced_mono L L' (times : list Z) : L <= L' → spaced L' times → spaced L times.
Proof. destruct times as [|T times]; simpl; [done|]. intros ? [? ?]. split; [lia|done]. Qed.

Lemma ping_times_app (tr tr' : list (Z * output)) :
  ping_times (tr ++ tr') = ping_times tr ++ ping_times tr'.
Proof. unfold ping_times. by rewrite List.filter_app, map_app. Qed.

Lemma ping_times_sendTXT T s :
  ping_times (stamp T (sendTXT "Ping from ESP32" s)) = if connected s then [T] else [].
Proof. unfold sendTXT. by destruct (connected s). Qed.

(** One call of the timer, from a state whose [lastTime] stands for the
    time [L] *)
Lemma ping_timer_step prev k s L :
  lastTime s = millis L → L <= T2 prev → T1 prev - L <= 5000 →
  T2 prev <= T1 k → T1 k <= T2 k → T2 k - T1 prev < 2 ^ 32 - 5000 →
  ∃ L', lastTime (ping_timer (T1 k) (T2 k) s).1 = millis L'
        ∧ connected (ping_timer (T1 k) (T2 k) s).1 = connected s
        ∧ L <= L' ∧ L' <= T2 k ∧ T1 k - L' <= 5000
        ∧ ∀ later, spaced L' later →
            spaced L (ping_times (stamp (T2 k) (ping_timer (T1 k) (T2 k) s).2) ++ later).
Proof.
  intros HL H1 H2 H3 H4 H5. unfold ping_timer. rewrite HL.
  rewrite ping_timer_survives_overflow by lia.
  destruct (5000 <? T1 k - L) eqn:Hdue.
  - apply Z.ltb_lt in Hdue. exists (T2 k). simpl.
    repeat split; try lia. intros later Hs.
    rewrite ping_times_sendTXT. destruct (connected s); simpl.
    + split; [lia|done].
    + apply (spaced_mono _ (T2 k)); [lia|done].
  - apply Z.ltb_ge in Hdue. exists L. simpl. repeat split; try done; lia.
Qed.

Lemma stamp_app T (out out' : list output) :
  stamp T (out ++ out') = stamp T out ++ stamp T out'.
Proof. unfold stamp. apply map_app. Qed.

(** A callback that sends no ping leaves the timer alone. *)
Lemma webSocket_loop_quiet onEvent (evs : list ws_event) s T :
  (∀ type payload s' T', ping_times (stamp T' (onEvent type payload s')) = []) →
  lastTime (webSocket_loop onEvent evs s).1 = lastTime s
  ∧ ping_times (stamp T (webSocket_loop onEvent evs s).2) = [].
Proof.
  intros Hq. revert s. induction evs as [|[type payload] evs IH]; intros s; [done|].
  simpl. destruct (webSocket_loop onEvent evs (mark type s)) as [s2 out2] eqn:E.
  destruct (IH (mark type s)) as [IH1 IH2]. rewrite E in IH1, IH2. simpl in *.
  split.
  - rewrite IH1. by destruct type.
  - by rewrite stamp_app, ping_times_app, Hq, IH2.
Qed.

Lemma local_callback_quiet type payload s T :
  ping_times (stamp T (WsConnectionClient.webSocketEvent type payload s)) = [].
Proof. destruct type; simpl; try done. unfold sendTXT. by destruct (connected s). Qed.

Lemma remote_callback_quiet type payload s T :
  ping_times (stamp T (RemoteConnectionInternet.webSocketEvent type payload s)) = [].
Proof. destruct type; simpl; try done. unfold sendTXT. by destruct (connected s). Qed.

Lemma await_link_quiet body (readings rest : list bool) out T :
  ping_times (stamp T body) = [] →
  await_link body readings = Some (out, rest) →
  ping_times (stamp T out) = [].
Proof.
  intros Hb. revert out. induction readings as [|[] readings IH]; intros out; simpl.
  - done.
  - by intros [= <- _].
  - destruct (await_link body readings) as [[out' rest']|]; [|done].
    intros [= <- ->]. by rewrite stamp_app, ping_times_app, Hb, (IH out' eq_refl).
Qed.

Lemma ensureWiFi_quiet (readings rest : list bool) out T :
  RemoteConnectionInternet.ensureWiFi readings = Some (out, rest) →
  ping_times (stamp T out) = [].
Proof.
  unfold RemoteConnectionInternet.ensureWiFi.
  destruct readings as [|[] readings]; [done|by intros [= <- _]|].
  destruct (await_link _ readings) as [[out' rest']|] eqn:E; [|done].
  intros [= <- _].
  change (ping_times (stamp T (out' ++ [println (LF +:+ "WiFi reconnected")])) = []).
  rewrite stamp_app, ping_times_app.
  by rewrite (await_link_quiet [Delay 500; print "."] _ _ _ T eq_refl E).
Qed.

Lemma local_run_spaced ticks prev s L :
  lastTime s = millis L → L <= T2 prev → T1 prev - L <= 5000 →
  regular prev ticks →
  spaced L (ping_times (WsConnectionClient.run ticks s).2).
Proof.
  revert prev s L. induction ticks as [|k ticks IH]; intros prev s L HL H1 H2 Hr; [done|].
  destruct Hr as (H3 & H4 & H5 & Hr). simpl. unfold WsConnectionClient.loop.
  destruct (webSocket_loop_quiet WsConnectionClient.webSocketEvent (events k) s (T1 k)
              local_callback_quiet) as [Hl Hq].
  destruct (webSocket_loop _ (events k) s) as [s1 out1]. simpl in Hl, Hq.
  assert (lastTime s1 = millis L) as HL1 by congruence.
  destruct (ping_timer_step prev k s1 L HL1 H1 H2 H3 H4 H5)
    as (L' & HL' & _ & Hle & Hle' & Hnd & Hsp).
  destruct (ping_timer (T1 k) (T2 k) s1) as [s2 out2]. simpl in HL', Hsp.
  specialize (IH k s2 L' HL' Hle' Hnd Hr).
  destruct (WsConnectionClient.run ticks s2) as [s3 out3]. simpl in *.
  rewrite !ping_times_app, Hq. simpl. by apply Hsp.
Qed.

Lemma remote_run_spaced ticks prev s L s' trace :
  lastTime s = millis L → L <= T2 prev → T1 prev - L <= 5000 →
  regular prev ticks →
  RemoteConnectionInternet.run ticks s = Some (s', trace) →
  spaced L (ping_times trace).
Proof.
  revert prev s L s' trace.
  induction ticks as [|k ticks IH]; intros prev s L s' trace HL H1 H2 Hr.
  { by intros [= _ <-]. }
  destruct Hr as (H3 & H4 & H5 & Hr). simpl. unfold RemoteConnectionInternet.loop.
  destruct (RemoteConnectionInternet.ensureWiFi (statuses k)) as [[out0 rest]|] eqn:E0;
    [|done].
  pose proof (ensureWiFi_quiet _ _ _ (T1 k) E0) as Hq0.
  destruct (webSocket_loop_quiet RemoteConnectionInternet.webSocketEvent (events k) s
              (T1 k) remote_callback_quiet) as [Hl Hq].
  destruct (webSocket_loop _ (events k) s) as [s1 out1]. simpl in Hl, Hq.
  assert (lastTime s1 = millis L) as HL1 by congruence.
  destruct (ping_timer_step prev k s1 L HL1 H1 H2 H3 H4 H5)
    as (L' & HL' & _ & Hle & Hle' & Hnd & Hsp).
  destruct (ping_timer (T1 k) (T2 k) s1) as [s2 out2]. simpl in HL', Hsp.
  destruct (RemoteConnectionInternet.run ticks s2) as [[s3 out3]|] eqn:E3; [|done].
  intros [= _ <-]. specialize (IH k s2 L' s3 out3 HL' Hle' Hnd Hr E3).
  rewrite !ping_times_app, stamp_app, ping_times_app, Hq0, Hq. simpl. by apply Hsp.
Qed.

(** X10: the pings of a sketch are more than five seconds apart.  Let the
    calls of [loop] follow each other in time from the start of the
    program, each within [2^32 - 5000] milliseconds of the start of the one
    before.  Then in both sketches the first ping goes out more than 5000
    milliseconds after the start and every later ping more than 5000
    milliseconds after the ping before it, however often the 32-bit
    counter of [millis] has started again and whatever the socket and the
    WiFi link have done in the meantime. *)
Theorem pings_are_five_seconds_apart ticks :
  regular power_on ticks →
  spaced 0 (ping_times (WsConnectionClient.run ticks boot).2)
  ∧ ∀ s trace, RemoteConnectionInternet.run ticks boot = Some (s, trace) →
               spaced 0 (ping_times trace).
Proof.
  intros Hr. split.
  - by apply (local_run_spaced ticks power_on boot 0).
  - intros s trace Hrun.
    by apply (remote_run_spaced ticks power_on boot 0 s trace).
Qed.

Lemma pings_are_five_seconds_apart_witness :
  regular power_on ArduinoSample.every_three_seconds
  ∧ ping_times (WsConnectionClient.run ArduinoSample.every_three_seconds boot).2
    = [6001; 12002]
  ∧ spaced 0 (ping_times
      (WsConnectionClient.run ArduinoSample.every_three_seconds boot).2).
Proof.
  assert (regular power_on ArduinoSample.every_three_seconds) as Hr
    by (vm_compute; intuition discriminate).
  split; [exact Hr|]. split; [vm_compute; reflexivity|].
  exact (proj1 (pings_are_five_seconds_apart _ Hr)).
Defined.

Lemma await_link_connects body n (rest : list bool) :
  await_link body (replicate n false ++ true :: rest)
  = Some (concat (replicate n body), rest).
Proof.
  induction n as [|n IH]; [done|]. simpl. rewrite IH. done.
Qed.

Lemma await_link_returns body (readings : list bool) :
  is_Some (await_link body readings) ↔ true ∈ readings.
Proof.
  induction readings as [|[] readings IH]; simpl.
  - split; [by intros [? ?]|by intros ?%elem_of_nil].
  - split; [intros _; by left|by eexists].
  - rewrite elem_of_cons, <- IH.
    destruct (await_link body readings) as [[out rest]|].
    + split; [by right|by eexists].
    + split; [by intros [? ?]|intros [?|[? ?]]; done].
Qed.

(** X11: [ensureWiFi] comes back exactly when the link is up.  With the
    link up at the first reading it does nothing at all.  With the link
    down for the first [n + 1] readings and up at the next, it reports the
    loss, calls [WiFi.begin] once, waits 500 milliseconds and prints one
    dot for each of the [n] further readings, and reports the link; it
    returns if and only if some reading shows the link up.  Until then the
    call of [loop] it belongs to does not return: no event of the socket
    is handled and no ping is sent. *)
Theorem ensureWiFi_returns_when_linked n (readings rest : list bool) k s :
  RemoteConnectionInternet.ensureWiFi (true :: rest) = Some ([], rest)
  ∧ RemoteConnectionInternet.ensureWiFi (replicate (S n) false ++ true :: rest)
    = Some ([println "WiFi disconnected, reconnecting...";
             WiFiBegin RemoteConnectionInternet.ssid RemoteConnectionInternet.password]
            ++ concat (replicate n [Delay 500; print "."])
            ++ [println (LF +:+ "WiFi reconnected")],
            rest)
  ∧ (is_Some (RemoteConnectionInternet.ensureWiFi readings) ↔ true ∈ readings)
  ∧ (true ∉ statuses k → RemoteConnectionInternet.loop k s = None).
Proof.
  assert (is_Some (RemoteConnectionInternet.ensureWiFi readings) ↔ true ∈ readings)
    as Hiff.
  { unfold RemoteConnectionInternet.ensureWiFi.
    destruct readings as [|[] readings].
    - split; [by intros [? ?]|by intros ?%elem_of_nil].
    - split; [intros _; by left|by eexists].
    - rewrite elem_of_cons, <- (await_link_returns [Delay 500; print "."]).
      destruct (await_link _ readings) as [[out rest']|].
      + split; [by right|by eexists].
      + split; [by intros [? ?]|intros [?|[? ?]]; done]. }
  split; [done|]. split; [|split; [exact Hiff|]].
  - simpl. by rewrite await_link_connects.
  - intros Hn. unfold RemoteConnectionInternet.loop.
    destruct (RemoteConnectionInternet.ensureWiFi (statuses k)) as [[out0 rest0]|] eqn:E;
      [|done].
    exfalso. apply Hn. revert E. clear.
    unfold RemoteConnectionInternet.ensureWiFi.
    destruct (statuses k) as [|[] st]; [done|by left|].
    destruct (await_link _ st) as [[out rest']|] eqn:E'; [|done].
    intros _. right. apply (await_link_returns [Delay 500; print "."]). by rewrite E'.
Qed.

Lemma ensureWiFi_returns_when_linked_witness :
  (true ∉ [false; false; false])
  ∧ RemoteConnectionInternet.loop (Tick [false; false; false] [] 6000 6000) boot = None.
Proof.
  assert (true ∉ [false; false; false]) as Hn.
  { intros Hin. apply list_elem_of_In in Hin.
    destruct Hin as [Hin|[Hin|[Hin|[]]]]; discriminate. }
  split; [exact Hn|].
  exact (proj2 (proj2 (proj2 (ensureWiFi_returns_when_linked 0 [] []
           (Tick [false; false; false] [] 6000 6000) boot))) Hn).
Defined.

(** X12: [setup] starts the socket only once the WiFi link is up.  With
    the link down for the first [n] readings and up at the next, the
    sketch for the local server waits [n] times a second, printing
    [Connecting to WiFi...] each time, and the sketch for the tunnel waits
    [n] times half a second, printing a dot each time; only then does
    either configure its socket (plain on port 8080, respectively TLS on
    port 443 with a reconnect interval of five seconds), once.  [setup]
    returns if and only if some reading shows the link up. *)
Theorem setup_waits_for_the_link n (readings rest : list bool) :
  WsConnectionClient.setup (replicate n false ++ true :: rest)
  = Some ([SerialBegin 115200;
           WiFiBegin WsConnectionClient.ssid WsConnectionClient.password]
          ++ concat (replicate n [Delay 1000; println "Connecting to WiFi..."])
          ++ [println "Connected to WiFi";
              WebSocketBegin "Pi's Ip address" 8080 "/";
              WebSocketOnEvent],
          rest)
  ∧ RemoteConnectionInternet.setup (replicate n false ++ true :: rest)
    = Some ([SerialBegin 115200;
             WiFiBegin RemoteConnectionInternet.ssid RemoteConnectionInternet.password;
             print "Connecting to WiFi"]
            ++ concat (replicate n [Delay 500; print "."])
            ++ [println (LF +:+ "Connected to WiFi");
                WebSocketBeginSSL "domain name of the ngrok tunnel" 443 "/";
                WebSocketOnEvent;
                WebSocketSetReconnectInterval 5000],
            rest)
  ∧ (is_Some (WsConnectionClient.setup readings) ↔ true ∈ readings)
  ∧ (is_Some (RemoteConnectionInternet.setup readings) ↔ true ∈ readings).
Proof.
  split; [|split; [|split]].
  - unfold WsConnectionClient.setup. by rewrite await_link_connects.
  - unfold RemoteConnectionInternet.setup. by rewrite await_link_connects.
  - rewrite <- (await_link_returns [Delay 1000; println "Connecting to WiFi..."]).
    unfold WsConnectionClient.setup.
    destruct (await_link _ readings) as [[out r]|];
      (split; [intros _|intros _]; first [by eexists | done])
      || (split; by intros [? ?]).
  - rewrite <- (await_link_returns [Delay 500; print "."]).
    unfold RemoteConnectionInternet.setup.
    destruct (await_link _ readings) as [[out r]|];
      (split; [intros _|intros _]; first [by eexists | done])
      || (split; by intros [? ?]).
Qed.

Lemma c_str_nul_free (text : string) : has_nul text = false → c_str text = text.
Proof.
  induction text as [|c text IH]; [done|]. simpl.
  destruct (Ascii.eqb c NUL); [done|]. simpl. intros H. by rewrite IH.
Qed.

Lemma c_str_cut (text tail : string) :
  has_nul text = false → c_str (text +:+ String NUL tail) = text.
Proof.
  induction text as [|c text IH]; [done|]. simpl.
  destruct (Ascii.eqb c NUL); [done|]. simpl. intros H. by rewrite IH.
Qed.

(** X13: a text that arrives is written to the serial port and not
    answered.  On a TEXT event both sketches print [[WSc] Received: ],
    the text and a line feed, and send no frame.  The text is printed as a
    C string: of a payload with a zero byte only the part before the
    first zero byte is printed. *)
Theorem received_text_is_logged_up_to_nul (text tail : string) s :
  has_nul text = false →
  WsConnectionClient.webSocketEvent WStype_TEXT (Some text) s
  = [print ("[WSc] Received: " +:+ text +:+ LF)]
  ∧ WsConnectionClient.webSocketEvent WStype_TEXT (Some (text +:+ String NUL tail)) s
    = [print ("[WSc] Received: " +:+ text +:+ LF)]
  ∧ RemoteConnectionInternet.webSocketEvent WStype_TEXT (Some text) s
    = [print ("[WSc] Received: " +:+ text +:+ LF)]
  ∧ RemoteConnectionInternet.webSocketEvent WStype_TEXT
      (Some (text +:+ String NUL tail)) s
    = [print ("[WSc] Received: " +:+ text +:+ LF)].
Proof.
  intros Hn. unfold WsConnectionClient.webSocketEvent,
    RemoteConnectionInternet.webSocketEvent, percent_s.
  by rewrite c_str_nul_free, c_str_cut.
Qed.

Lemma received_text_is_logged_up_to_nul_witness :
  has_nul "ab" = false
  ∧ WsConnectionClient.webSocketEvent WStype_TEXT
      (Some ("ab" +:+ String NUL "cd")) boot
    = [print ("[WSc] Received: ab" +:+ LF)].
Proof.
  assert (has_nul "ab" = false) as Hn by reflexivity.
  split; [exact Hn|].
  exact (proj1 (proj2 (received_text_is_logged_up_to_nul "ab" "cd" boot Hn))).
Defined.

(** X14: a frame of a sketch and the answer of an echo server make one
    round and no more.  For a text [M] without a zero byte, sent by a
    client whose socket is open, the echo server with the template
    literal sends the client one frame; on it the sketch prints
    [[WSc] Received: Server received: ], [M] and a line feed.  From the
    echo server with the quoted string the sketch prints
    [[WSc] Received: Server recieved: ${message}] whatever [M] is.  In
    both cases the sketch sends nothing back. *)
Theorem echo_round_trip M ws (w : world unit) s :
  has_nul M = false → is_open w ws →
  sent_to ws (effects (emit EchoServer.wss (Message ws M) w)) = [EchoServer.reply M]
  ∧ WsConnectionClient.webSocketEvent WStype_TEXT (Some (EchoServer.reply M)) s
    = [print ("[WSc] Received: Server received: " +:+ M +:+ LF)]
  ∧ RemoteConnectionInternet.webSocketEvent WStype_TEXT (Some (EchoServer.reply M)) s
    = [print ("[WSc] Received: Server received: " +:+ M +:+ LF)]
  ∧ sent_to ws (effects (emit EchoServerQuoted.wss (Message ws M) w))
    = [EchoServerQuoted.reply M]
  ∧ WsConnectionClient.webSocketEvent WStype_TEXT (Some (EchoServerQuoted.reply M)) s
    = [print ("[WSc] Received: Server recieved: ${message}" +:+ LF)]
  ∧ RemoteConnectionInternet.webSocketEvent WStype_TEXT
      (Some (EchoServerQuoted.reply M)) s
    = [print ("[WSc] Received: Server recieved: ${message}" +:+ LF)].
Proof.
  intros Hn Ho.
  assert (has_nul (EchoServer.reply M) = false) as Hr by (by simpl).
  destruct (received_text_is_logged_up_to_nul _ EmptyString s Hr) as (H1 & _ & H3 & _).
  rewrite !emit_message_open, echo_on_message, echo_quoted_on_message by done.
  simpl sent_to. rewrite !decide_True by done.
  repeat split; try done.
Qed.

Lemma echo_round_trip_witness :
  (has_nul Sample.ping = false ∧ is_open Sample.one_client 0)
  ∧ WsConnectionClient.webSocketEvent WStype_TEXT
      (Some (EchoServer.reply Sample.ping)) boot
    = [print ("[WSc] Received: Server received: Ping from ESP32" +:+ LF)].
Proof.
  assert (has_nul Sample.ping = false) as Hn by reflexivity.
  assert (is_open Sample.one_client 0) as Ho by reflexivity.
  split; [split; [exact Hn|exact Ho]|].
  exact (proj1 (proj2 (echo_round_trip Sample.ping 0 Sample.one_client boot Hn Ho))).
Defined.

End Sketches.
